(** * website_analytics: the job pipeline, the text extractors and the
      key-value store, embedded from the TypeScript sources

    Sources embedded here:
    - [src/lib/storage.ts]                               ([sanitizeKey], [storage])
    - [src/app/actions/product-comparison-action.ts]     ([fetchWithRetry],
      [safeJsonParse], [scrapeWebsite], [analyzeProductData],
      [analyzeProducts], [runProductComparison], [compareWebsites],
      [generateFallbackSWOT])
    - [src/app/actions/extract-product-data-action.ts]   ([extractProductData])
    - [src/app/api/product-comparison/[id]/route.ts]     ([GET])
    - [src/app/product-comparison/results/[id]/client-results.tsx]
      ([cleanProductData])

    Conventions.  A JavaScript string is the list of its UTF-16 code units
    ([N]).  A JavaScript number is modelled by the exact rational value of
    its decimal literal ([Q]); the rounding of doubles is not modelled.
    Awaited promises are sequential computations in the monad [io]: a
    computation takes the state of the outside world and gives a completion
    (a value, or a thrown error) and the next state. *)

From Stdlib Require Import ZArith NArith QArith Qminmax Lia List Ascii String Sorted.
From stdpp Require Import base list.

Set Default Proof Using "Type".
Set Warnings "-register-all".

(** ** Strings of UTF-16 code units *)

Abbreviation str := (list N).

Definition ch (a : ascii) : N := N_of_ascii a.
Definition lit (s : string) : str := ch <$> list_ascii_of_string s.

Definition str_eqb (a b : str) : bool := bool_decide (a = b).

(** [WhiteSpace] and [LineTerminator] of ECMAScript: what
    [String.prototype.trim] strips and what [\s] matches. *)
Definition is_space (c : N) : bool :=
  ((9 <=? c) && (c <=? 13) || (c =? 32) || (c =? 160) || (c =? 5760)
   || (8192 <=? c) && (c <=? 8202) || (c =? 8232) || (c =? 8233)
   || (c =? 8239) || (c =? 8287) || (c =? 12288) || (c =? 65279))%N.

Definition is_digit (c : N) : bool := ((48 <=? c) && (c <=? 57))%N.

Fixpoint drop_spaces (s : str) : str :=
  match s with
  | c :: s' => if is_space c then drop_spaces s' else s
  | [] => []
  end.

(** [s.trim()] *)
Definition trim (s : str) : str := rev (drop_spaces (rev (drop_spaces s))).

(** [s.startsWith(p)] *)
Fixpoint startsWith (p s : str) : bool :=
  match p, s with
  | [], _ => true
  | a :: p', b :: s' => (a =? b)%N && startsWith p' s'
  | _ :: _, [] => false
  end.

(** [s.endsWith(p)] *)
Definition endsWith (p s : str) : bool := startsWith (rev p) (rev s).

(** [s.includes(p)] *)
Fixpoint includes (p s : str) : bool :=
  startsWith p s || match s with [] => false | _ :: s' => includes p s' end.

(** [s.indexOf(p)]; [None] stands for -1. *)
Fixpoint indexOf (p s : str) : option nat :=
  if startsWith p s then Some 0%nat
  else match s with [] => None | _ :: s' => S <$> indexOf p s' end.

(** [s.lastIndexOf(p)]; [None] stands for -1. *)
Fixpoint lastIndexOf (p s : str) : option nat :=
  match s with
  | [] => if startsWith p [] then Some 0%nat else None
  | _ :: s' =>
      match lastIndexOf p s' with
      | Some i => Some (S i)
      | None => if startsWith p s then Some 0%nat else None
      end
  end.

(** [s.substring(i, j)] for [i <= j]. *)
Definition substring (i j : nat) (s : str) : str := take (j - i) (drop i s).

(** [s.split(c)] for a separator of one code unit. *)
Fixpoint str_split (c : N) (s : str) : list str :=
  match s with
  | [] => [[]]
  | x :: s' =>
      if (x =? c)%N then [] :: str_split c s'
      else match str_split c s' with
           | l :: ls => (x :: l) :: ls
           | [] => [[x]]
           end
  end.

(** [parts.join(sep)] *)
Fixpoint str_join (sep : str) (parts : list str) : str :=
  match parts with
  | [] => []
  | [p] => p
  | p :: ps => p ++ sep ++ str_join sep ps
  end.

(** [s.replace(/c/g, r)] for a pattern of one code unit. *)
Definition replace_char (c : N) (r : str) (s : str) : str :=
  s ≫= (λ x, if (x =? c)%N then r else [x]).

(** Decimal digits of a natural number, as [String(n)] prints it. *)
Fixpoint digits_fuel (fuel : nat) (n : N) (acc : str) : str :=
  match fuel with
  | O => acc
  | S fuel' =>
      let acc' := (48 + n mod 10)%N :: acc in
      if (n <? 10)%N then acc' else digits_fuel fuel' (n / 10)%N acc'
  end.

Definition N_to_str (n : N) : str := digits_fuel (S (N.to_nat (N.log2 n))) n [].

(** The value of a run of decimal digits. *)
Definition digits_value (ds : str) : N :=
  fold_left (λ acc d, (10 * acc + (d - 48))%N) ds 0%N.

(** [s.replace(/[...]/g, r)] for a character class given by its test. *)
Definition replace_class (cls : N → bool) (r : str) (s : str) : str :=
  s ≫= (λ x, if cls x then r else [x]).

(** The longest prefix of [s] whose code units satisfy [p], and the rest. *)
Fixpoint span (p : N → bool) (s : str) : str * str :=
  match s with
  | c :: s' => if p c then let '(a, b) := span p s' in (c :: a, b) else ([], s)
  | [] => ([], [])
  end.

(** ** JSON values and JavaScript objects *)

Inductive json :=
  | JNull
  | JBool (b : bool)
  | JNum (q : Q)
  | JStr (s : str)
  | JArr (items : list json)
  | JObj (fields : list (str * json)).

(** An array index in the sense of ECMAScript: the canonical decimal form
    of an integer below 2^32 - 1.  Such property names are enumerated
    first, in ascending order. *)
Definition array_index (k : str) : option N :=
  match k with
  | [] => None
  | c :: rest =>
      if forallb is_digit k && (negb (c =? 48)%N || bool_decide (rest = []))
      then let n := digits_value k in
           if (n <? 4294967295)%N then Some n else None
      else None
  end.

(** The own properties of an ordinary object, in enumeration order. *)
Section own_properties.
Context {A : Type}.

Definition has_own (k : str) (o : list (str * A)) : bool :=
  existsb (λ e, str_eqb e.1 k) o.

Fixpoint own_get (k : str) (o : list (str * A)) : option A :=
  match o with
  | [] => None
  | (k', v) :: o' => if str_eqb k' k then Some v else own_get k o'
  end.

Fixpoint own_replace (k : str) (v : A) (o : list (str * A)) : list (str * A) :=
  match o with
  | [] => []
  | (k', v') :: o' =>
      if str_eqb k' k then (k', v) :: o' else (k', v') :: own_replace k v o'
  end.

Fixpoint insert_index (n : N) (k : str) (v : A) (o : list (str * A))
  : list (str * A) :=
  match o with
  | [] => [(k, v)]
  | (k', v') :: o' =>
      match array_index k' with
      | Some n' =>
          if (n' <? n)%N then (k', v') :: insert_index n k v o'
          else (k, v) :: o
      | None => (k, v) :: o
      end
  end.

(** [o[k] = v] on an object none of whose prototypes intercepts [k]. *)
Definition own_set (k : str) (v : A) (o : list (str * A)) : list (str * A) :=
  if has_own k o then own_replace k v o
  else match array_index k with
       | Some n => insert_index n k v o
       | None => o ++ [(k, v)]
       end.

(** [delete o[k]] *)
Definition own_delete (k : str) (o : list (str * A)) : list (str * A) :=
  filter (λ e, e.1 ≠ k) o.

(** The names a [for ... in] loop or [Object.entries] visits. *)
Definition own_keys (o : list (str * A)) : list str := o.*1.
End own_properties.

(** ** [JSON.parse] *)

Inductive token :=
  | TLBrace | TRBrace | TLBracket | TRBracket | TColon | TComma
  | TString (s : str) | TNumber (q : Q) | TTrue | TFalse | TNull.

(** The value of a JSON number literal: an optional minus sign, an integer
    part without superfluous leading zero, an optional fraction and an
    optional exponent. *)
Definition strip_minus (s : str) : bool * str :=
  match s with c :: s' => if (c =? 45)%N then (true, s') else (false, s) | [] => (false, []) end.

Definition parse_exponent (s : str) : option Z :=
  match s with
  | [] => Some 0%Z
  | c :: s1 =>
      if (c =? 101)%N || (c =? 69)%N then
        let '(neg, s2) :=
          match s1 with
          | d :: s2 => if (d =? 45)%N then (true, s2)
                       else if (d =? 43)%N then (false, s2) else (false, s1)
          | [] => (false, [])
          end in
        let '(ds, rest) := span is_digit s2 in
        match ds, rest with
        | _ :: _, [] =>
            let e := Z.of_N (digits_value ds) in Some (if neg then (- e)%Z else e)
        | _, _ => None
        end
      else None
  end.

Definition decimal_value (neg : bool) (mantissa : N) (exponent : Z) : Q :=
  let m := if neg then (- Z.of_N mantissa)%Z else Z.of_N mantissa in
  if (0 <=? exponent)%Z then inject_Z (m * 10 ^ exponent)
  else Qred (Qmake m (Z.to_pos (10 ^ (- exponent)))).

Definition parse_number (s : str) : option Q :=
  let '(neg, s1) := strip_minus s in
  let '(ip, s2) := span is_digit s1 in
  match ip with
  | [] => None
  | d :: ip' =>
      if (d =? 48)%N && negb (bool_decide (ip' = [])) then None
      else
        let '(fp, s3) :=
          match s2 with
          | c :: s2' => if (c =? 46)%N then span is_digit s2' else ([], s2)
          | [] => ([], [])
          end in
        let has_point := match s2 with c :: _ => (c =? 46)%N | [] => false end in
        if has_point && bool_decide (fp = []) then None
        else
          e ← parse_exponent s3;
          Some (decimal_value neg (digits_value (ip ++ fp))
                  (e - Z.of_nat (length fp)))
  end.

Definition scalar_token (word : str) : option token :=
  if str_eqb word (lit "true") then Some TTrue
  else if str_eqb word (lit "false") then Some TFalse
  else if str_eqb word (lit "null") then Some TNull
  else TNumber <$> parse_number word.

Definition hex_value (c : N) : option N :=
  if is_digit c then Some (c - 48)%N
  else if ((97 <=? c) && (c <=? 102))%N then Some (c - 87)%N
  else if ((65 <=? c) && (c <=? 70))%N then Some (c - 55)%N
  else None.

Inductive lexer :=
  | LIdle
  | LString (acc : str)
  | LEscape (acc : str)
  | LHex (acc : str) (seen : list N)
  | LScalar (acc : str).

Definition is_scalar_unit (c : N) : bool :=
  is_digit c || (c =? 45)%N || (c =? 43)%N || (c =? 46)%N
  || ((97 <=? c) && (c <=? 122))%N || ((65 <=? c) && (c <=? 90))%N.

Definition lex_idle (c : N) (out : list token) : option (lexer * list token) :=
  if (c =? 32)%N || (c =? 9)%N || (c =? 10)%N || (c =? 13)%N then Some (LIdle, out)
  else if (c =? 123)%N then Some (LIdle, TLBrace :: out)
  else if (c =? 125)%N then Some (LIdle, TRBrace :: out)
  else if (c =? 91)%N then Some (LIdle, TLBracket :: out)
  else if (c =? 93)%N then Some (LIdle, TRBracket :: out)
  else if (c =? 58)%N then Some (LIdle, TColon :: out)
  else if (c =? 44)%N then Some (LIdle, TComma :: out)
  else if (c =? 34)%N then Some (LString [], out)
  else if is_scalar_unit c then Some (LScalar [c], out)
  else None.

(** One code unit of input; tokens and pending text are kept reversed. *)
Definition lex_step (st : option (lexer * list token)) (c : N)
  : option (lexer * list token) :=
  '(l, out) ← st;
  match l with
  | LIdle => lex_idle c out
  | LScalar acc =>
      if is_scalar_unit c then Some (LScalar (c :: acc), out)
      else t ← scalar_token (rev acc); lex_idle c (t :: out)
  | LString acc =>
      if (c =? 34)%N then Some (LIdle, TString (rev acc) :: out)
      else if (c =? 92)%N then Some (LEscape acc, out)
      else if (c <? 32)%N then None
      else Some (LString (c :: acc), out)
  | LEscape acc =>
      if (c =? 34)%N || (c =? 92)%N || (c =? 47)%N then Some (LString (c :: acc), out)
      else if (c =? 98)%N then Some (LString (8%N :: acc), out)
      else if (c =? 102)%N then Some (LString (12%N :: acc), out)
      else if (c =? 110)%N then Some (LString (10%N :: acc), out)
      else if (c =? 114)%N then Some (LString (13%N :: acc), out)
      else if (c =? 116)%N then Some (LString (9%N :: acc), out)
      else if (c =? 117)%N then Some (LHex acc [], out)
      else None
  | LHex acc seen =>
      h ← hex_value c;
      match seen with
      | [a; b; d] => Some (LString ((((a * 16 + b) * 16 + d) * 16 + h)%N :: acc), out)
      | _ => Some (LHex acc (seen ++ [h]), out)
      end
  end.

Definition tokenize (s : str) : option (list token) :=
  '(l, out) ← fold_left lex_step s (Some (LIdle, []));
  match l with
  | LIdle => Some (rev out)
  | LScalar acc => t ← scalar_token (rev acc); Some (rev (t :: out))
  | _ => None
  end.

Inductive frame :=
  | InArr (done : list json)
  | InObj (done : list (str * json))
  | InField (done : list (str * json)) (k : str).

Inductive expect :=
  | EValue | EFirstItem | EFirstKey | EKey | EColon (k : str) | ENext
  | EEnd (v : json).

Definition deliver (v : json) (stack : list frame) : option (expect * list frame) :=
  match stack with
  | [] => Some (EEnd v, [])
  | InArr done :: st => Some (ENext, InArr (v :: done) :: st)
  | InField done k :: st => Some (ENext, InObj (own_set k v done) :: st)
  | InObj _ :: _ => None
  end.

Definition parse_value_token (t : token) (stack : list frame)
  : option (expect * list frame) :=
  match t with
  | TString s => deliver (JStr s) stack
  | TNumber q => deliver (JNum q) stack
  | TTrue => deliver (JBool true) stack
  | TFalse => deliver (JBool false) stack
  | TNull => deliver JNull stack
  | TLBracket => Some (EFirstItem, InArr [] :: stack)
  | TLBrace => Some (EFirstKey, InObj [] :: stack)
  | _ => None
  end.

Definition parse_step (st : option (expect * list frame)) (t : token)
  : option (expect * list frame) :=
  '(e, stack) ← st;
  match e, t, stack with
  | EValue, _, _ => parse_value_token t stack
  | EFirstItem, TRBracket, InArr done :: st' => deliver (JArr (rev done)) st'
  | EFirstItem, _, _ => parse_value_token t stack
  | EFirstKey, TRBrace, InObj done :: st' => deliver (JObj done) st'
  | EFirstKey, TString k, _ => Some (EColon k, stack)
  | EKey, TString k, _ => Some (EColon k, stack)
  | EColon k, TColon, InObj done :: st' => Some (EValue, InField done k :: st')
  | ENext, TComma, InArr _ :: _ => Some (EValue, stack)
  | ENext, TComma, InObj _ :: _ => Some (EKey, stack)
  | ENext, TRBracket, InArr done :: st' => deliver (JArr (rev done)) st'
  | ENext, TRBrace, InObj done :: st' => deliver (JObj done) st'
  | _, _, _ => None
  end.

(** [JSON.parse(s)]; [None] stands for the [SyntaxError] it throws. *)
Definition JSON_parse (s : str) : option json :=
  toks ← tokenize s;
  '(e, _) ← fold_left parse_step toks (Some (EValue, []));
  match e with EEnd v => Some v | _ => None end.

(** ** [JSON.stringify] *)

(** [num / den] as [m * 10^(-shift)] with [m] an integer, when the
    fraction has a finite decimal expansion (every double has one). *)
Fixpoint decimal_scale (fuel : nat) (num : Z) (den : positive) (shift : nat)
  : option (Z * nat) :=
  if (den =? 1)%positive then Some (num, shift)
  else match fuel with
       | O => None
       | S fuel' =>
           let g := Z.gcd 10 (Zpos den) in
           if (g =? 1)%Z then None
           else decimal_scale fuel' (num * (10 / g))%Z
                  (Z.to_pos (Zpos den / g)) (S shift)
       end.

Definition strip_trailing_zeros (ds : str) : str :=
  rev (snd (span (λ c, (c =? 48)%N) (rev ds))).

Definition zeros (n : nat) : str := replicate n 48%N.

(** [Number.prototype.toString] of ECMAScript on the decimal digits of the
    value.  A rational without a finite expansion is not the value of any
    double; it is printed as [JSON.stringify] prints a non-finite number. *)
Definition Number_toString (q : Q) : str :=
  let r := Qred q in
  match decimal_scale (Pos.size_nat (Qden r)) (Qnum r) (Qden r) 0 with
  | None => lit "null"
  | Some (m, shift) =>
      if (m =? 0)%Z then lit "0"
      else
        let all := N_to_str (Z.abs_N m) in
        let n := (Z.of_nat (length all) - Z.of_nat shift)%Z in
        let s := strip_trailing_zeros all in
        let k := Z.of_nat (length s) in
        let body :=
          if ((k <=? n) && (n <=? 21))%Z then s ++ zeros (Z.to_nat (n - k))
          else if ((0 <? n) && (n <=? 21))%Z then
            take (Z.to_nat n) s ++ lit "." ++ drop (Z.to_nat n) s
          else if ((-6 <? n) && (n <=? 0))%Z then
            lit "0." ++ zeros (Z.to_nat (- n)) ++ s
          else
            let e := (n - 1)%Z in
            let mant := match s with
                        | [d] => [d]
                        | d :: ds => d :: lit "." ++ ds
                        | [] => []
                        end in
            mant ++ lit "e" ++ (if (0 <=? e)%Z then lit "+" else lit "-")
                 ++ N_to_str (Z.abs_N e) in
        (if (m <? 0)%Z then lit "-" else []) ++ body
  end.

Definition hex_digit (n : N) : N := if (n <? 10)%N then (48 + n)%N else (87 + n)%N.

Definition unicode_escape (c : N) : str :=
  lit "\u" ++ [hex_digit (c / 4096 mod 16); hex_digit (c / 256 mod 16);
               hex_digit (c / 16 mod 16); hex_digit (c mod 16)]%N.

Definition is_high_surrogate (c : N) : bool := ((55296 <=? c) && (c <=? 56319))%N.
Definition is_low_surrogate (c : N) : bool := ((56320 <=? c) && (c <=? 57343))%N.

Definition quote_unit (c : N) : str :=
  if (c =? 8)%N then lit "\b" else if (c =? 9)%N then lit "\t"
  else if (c =? 10)%N then lit "\n" else if (c =? 12)%N then lit "\f"
  else if (c =? 13)%N then lit "\r"
  else if (c =? 34)%N then [92; 34]%N
  else if (c =? 92)%N then [92; 92]%N
  else if (c <? 32)%N || is_low_surrogate c || is_high_surrogate c
  then unicode_escape c
  else [c].

Fixpoint quote_units (s : str) : str :=
  match s with
  | [] => []
  | c :: s' =>
      match s' with
      | d :: s'' =>
          if is_high_surrogate c && is_low_surrogate d
          then c :: d :: quote_units s''
          else quote_unit c ++ quote_units s'
      | [] => quote_unit c
      end
  end.

(** [QuoteJSONString] *)
Definition quote (s : str) : str := [34%N] ++ quote_units s ++ [34%N].

(** [JSON.stringify(v)] without indentation. *)
Fixpoint JSON_stringify (v : json) : str :=
  match v with
  | JNull => lit "null"
  | JBool true => lit "true"
  | JBool false => lit "false"
  | JNum q => Number_toString q
  | JStr s => quote s
  | JArr items =>
      lit "[" ++ str_join (lit ",") (map JSON_stringify items) ++ lit "]"
  | JObj fields =>
      lit "{"
      ++ str_join (lit ",")
           (map (λ kv, quote (fst kv) ++ lit ":" ++ JSON_stringify (snd kv)) fields)
      ++ lit "}"
  end.

(** Text written with an apostrophe wherever the double quote is meant. *)
Definition dq (s : string) : str :=
  (λ c, if (c =? 39)%N then 34%N else c) <$> lit s.

(** ** Completions *)

(** What a [throw] carries: an instance of [Error] with its message, or
    any other value (given by its [String(...)] form). *)
Inductive thrown :=
  | ErrorObject (message : str)
  | NonError (text : str).

Inductive completion (A : Type) :=
  | Normal (a : A)
  | Abrupt (e : thrown).
Arguments Normal {A} a.
Arguments Abrupt {A} e.

(** [error instanceof Error ? error.message : String(error)] *)
Definition error_text (e : thrown) : str :=
  match e with ErrorObject m => m | NonError t => t end.

(** ** src/lib/storage.ts *)

(** A normalized file path: whether it is absolute, and its segments. *)
Record path := { absolute : bool; segments : list str }.

#[global] Instance path_eq_dec : EqDecision path.
Proof. solve_decision. Defined.

(** One segment entering a normalized path (kept reversed), as
    [path.normalize] treats it. *)
Definition enter (abs : bool) (acc : list str) (seg : str) : list str :=
  if str_eqb seg [] || str_eqb seg (lit ".") then acc
  else if str_eqb seg (lit "..") then
    match acc with
    | last :: acc' => if str_eqb last (lit "..") then seg :: acc else acc'
    | [] => if abs then [] else [seg]
    end
  else seg :: acc.

(** [path.join(base, rel)] (POSIX) for a normalized [base]. *)
Definition path_join (base : path) (rel : str) : path :=
  {| absolute := absolute base;
     segments := rev (fold_left (enter (absolute base))
                        (str_split (ch "/") rel) (rev (segments base))) |}.

(** The names [Object.prototype] gives to every ordinary object. *)
Definition object_prototype_names : list str :=
  lit <$> [ "constructor"; "__defineGetter__"; "__defineSetter__";
            "hasOwnProperty"; "__lookupGetter__"; "__lookupSetter__";
            "isPrototypeOf"; "propertyIsEnumerable"; "toString"; "valueOf";
            "__proto__"; "toLocaleString" ]%string.

(** A value read out of the store: JSON data, or a member of
    [Object.prototype] (a function, or the prototype object itself). *)
Inductive js_value :=
  | Data (v : json)
  | Builtin (name : str).

(** [s.replace(p, r)] for a string pattern: the first occurrence only. *)
Fixpoint replace_first (p r s : str) : str :=
  if startsWith p s then r ++ drop (length p) s
  else match s with
       | [] => []
       | c :: s' => c :: replace_first p r s'
       end.

(** The length of a match of [/https?_colon__slash__slash_/] at the start
    of [s]. *)
Definition scheme_match (s : str) : option nat :=
  if startsWith (lit "https_colon__slash__slash_") s
  then Some (length (lit "https_colon__slash__slash_"))
  else if startsWith (lit "http_colon__slash__slash_") s
  then Some (length (lit "http_colon__slash__slash_"))
  else None.

(** Removing every match of [/https?_colon__slash__slash_/g]: matches are
    found from left to right and do not overlap; [skip] counts the code
    units of the current match still to be dropped. *)
Fixpoint remove_scheme_from (skip : nat) (s : str) : str :=
  match s with
  | [] => []
  | c :: s' =>
      match skip with
      | S n => remove_scheme_from n s'
      | O =>
          match scheme_match s with
          | Some (S n) => remove_scheme_from n s'
          | _ => c :: remove_scheme_from 0 s'
          end
      end
  end.
Definition remove_scheme (s : str) : str := remove_scheme_from 0 s.

(** The class of the last replacement: less-than, greater-than, colon,
    double quote, backslash, vertical bar, question mark, asterisk. *)
Definition invalid_file_char (c : N) : bool :=
  existsb (N.eqb c) [60; 62; 58; 34; 92; 124; 63; 42]%N.

Definition sanitizeKey (key : str) : str :=
  replace_class invalid_file_char (lit "_")
    (remove_scheme
      (replace_char (ch ".") (lit "_dot_")
        (replace_char (ch "=") (lit "_equals_")
          (replace_char (ch "&") (lit "_amp_")
            (replace_char (ch "?") (lit "_question_")
              (replace_char 92%N (lit "_backslash_")
                (replace_char (ch "/") (lit "_slash_")
                  (replace_char (ch ":") (lit "_colon_") key)))))))).

(** The process the module is loaded in. *)
Record platform := {
  hasFileSystemAccess : bool;  (* a Node.js process *)
  cwd : path;                  (* process.cwd() *)
  disk_writable : bool;        (* whether fs.writeFile succeeds *)
}.

(** [path.join(process.cwd(), ".storage")] *)
Definition STORAGE_DIR (pf : platform) : path := path_join (cwd pf) (lit ".storage").

(** The file [storage.set] writes for a key. *)
Definition file_of_key (pf : platform) (key : str) : path :=
  path_join (STORAGE_DIR pf) (sanitizeKey key ++ lit ".json").

(** The module's state: the [memoryStore] object (own properties; its
    prototype is [Object.prototype]) and the files on disk. *)
Record store := {
  memoryStore : list (str * str);
  disk : list (path * str);
}.

Definition empty_store : store := {| memoryStore := []; disk := [] |}.

(** [memoryStore[k]]: an own property, else an inherited one, else
    [undefined] ([None]). *)
Definition read (k : str) (o : list (str * str)) : option js_value :=
  match own_get k o with
  | Some s => Some (Data (JStr s))
  | None => if bool_decide (k ∈ object_prototype_names) then Some (Builtin k) else None
  end.

(** [memoryStore[k] = s] for a string [s]: the accessor [__proto__] of
    [Object.prototype] ignores a string; every other name becomes (or
    stays) an own property. *)
Definition assign (k : str) (s : str) (o : list (str * str)) : list (str * str) :=
  if str_eqb k (lit "__proto__") then o else own_set k s o.

Definition key_map (key : str) : str := lit "key_map:" ++ key.

(** Files: [fs.writeFile], [fs.readFile], [fs.unlink], [fs.readdir]. *)
Definition writeFile (p : path) (data : str) (d : list (path * str)) : list (path * str) :=
  (p, data) :: filter (λ e, e.1 ≠ p) d.

Definition readFile (p : path) (d : list (path * str)) : option str :=
  snd <$> find (λ e, bool_decide (e.1 = p)) d.

Definition unlink (p : path) (d : list (path * str)) : list (path * str) :=
  filter (λ e, e.1 ≠ p) d.

Definition readdir (dir : path) (d : list (path * str)) : list str :=
  omap (λ e : path * str,
          match rev (segments e.1) with
          | name :: parent =>
              if bool_decide (absolute e.1 = absolute dir ∧ rev parent = segments dir)
              then Some name else None
          | [] => None
          end) d.

Module storage.

(** The memory branch of [get]: a truthy [memoryStore[key]] is returned,
    parsed when it is a string starting with an opening brace; anything
    else gives [null]. *)
Definition from_memory (key : str) (st : store) : completion js_value :=
  match read key (memoryStore st) with
  | None => Normal (Data JNull)
  | Some (Builtin n) => Normal (Builtin n)
  | Some (Data (JStr s)) =>
      if str_eqb s [] then Normal (Data JNull)
      else if startsWith (lit "{") s then
        match JSON_parse s with
        | Some v => Normal (Data v)
        | None => Abrupt (ErrorObject (lit "Unexpected token in JSON"))
        end
      else Normal (Data (JStr s))
  | Some (Data v) => Normal (Data v)
  end.

(** [memoryStore[`key_map:${key}`] || sanitizeKey(key)] *)
Definition safe_key (key : str) (st : store) : str :=
  match own_get (key_map key) (memoryStore st) with
  | Some s => if str_eqb s [] then sanitizeKey key else s
  | None => sanitizeKey key
  end.

Definition set (pf : platform) (key : str) (value : json) (st : store) : store :=
  let stringValue := match value with JStr s => s | _ => JSON_stringify value end in
  if hasFileSystemAccess pf then
    if disk_writable pf then
      let safeKey := sanitizeKey key in
      {| memoryStore := assign (key_map key) safeKey (memoryStore st);
         disk := writeFile (path_join (STORAGE_DIR pf) (safeKey ++ lit ".json"))
                   stringValue (disk st) |}
    else
      {| memoryStore := assign key stringValue (memoryStore st); disk := disk st |}
  else
    {| memoryStore := assign key stringValue (memoryStore st); disk := disk st |}.

Definition get (pf : platform) (key : str) (st : store) : completion js_value :=
  if hasFileSystemAccess pf then
    let filePath := path_join (STORAGE_DIR pf) (safe_key key st ++ lit ".json") in
    match readFile filePath (disk st) ≫= JSON_parse with
    | Some v => Normal (Data v)
    | None => from_memory key st
    end
  else from_memory key st.

Definition del (pf : platform) (key : str) (st : store) : store :=
  let st1 :=
    if hasFileSystemAccess pf then
      let filePath := path_join (STORAGE_DIR pf) (safe_key key st ++ lit ".json") in
      match readFile filePath (disk st) with
      | Some _ =>
          {| memoryStore := own_delete (key_map key) (memoryStore st);
             disk := unlink filePath (disk st) |}
      | None => st
      end
    else st in
  {| memoryStore := own_delete key (memoryStore st1); disk := disk st1 |}.

(** The original key of a file name: the first [key_map:] entry of
    [Object.entries(memoryStore)] whose value is the safe key. *)
Definition original_key (safeKey : str) (o : list (str * str)) : str :=
  match find (λ e, startsWith (lit "key_map:") e.1 && str_eqb e.2 safeKey) o with
  | Some e => replace_first (lit "key_map:") [] e.1
  | None => safeKey
  end.

Definition from_files (pf : platform) (prefix : str) (st : store) : list str :=
  omap (λ file,
          if endsWith (lit ".json") file then
            let originalKey :=
              original_key (replace_first (lit ".json") [] file) (memoryStore st) in
            if startsWith prefix originalKey then Some originalKey else None
          else None)
       (readdir (STORAGE_DIR pf) (disk st)).

(** The loop [for (const key in memoryStore)] of [keys]. *)
Definition scan_memory (prefix : str) (o : list (str * str)) (keys : list str)
  : list str :=
  fold_left
    (λ keys key,
       if startsWith prefix key && negb (startsWith (lit "key_map:") key)
          && negb (bool_decide (key ∈ keys))
       then keys ++ [key] else keys)
    (own_keys o) keys.

Definition keys (pf : platform) (prefix : str) (st : store) : list str :=
  scan_memory prefix (memoryStore st)
    (if hasFileSystemAccess pf then from_files pf prefix st else []).

End storage.

(** ** Reading JavaScript values *)

(** [!!v] for a value that may be [undefined] ([None]). *)
Definition truthy (v : option json) : bool :=
  match v with
  | None | Some JNull => false
  | Some (JBool b) => b
  | Some (JNum q) => negb (Qeq_bool q 0)
  | Some (JStr s) => negb (str_eqb s [])
  | Some (JArr _) | Some (JObj _) => true
  end.

Definition TypeError (what : string) : thrown := ErrorObject (lit what).

(** [v[name]]: a [TypeError] on [undefined] and [null]; own properties of
    objects, [length] and indices of arrays and strings; [undefined]
    otherwise.  (None of the names the sources read this way is a member
    of a built-in prototype.) *)
Definition get_prop (v : option json) (name : str) : completion (option json) :=
  match v with
  | None => Abrupt (TypeError "Cannot read properties of undefined")
  | Some JNull => Abrupt (TypeError "Cannot read properties of null")
  | Some (JObj fields) => Normal (own_get name fields)
  | Some (JArr items) =>
      if str_eqb name (lit "length")
      then Normal (Some (JNum (inject_Z (Z.of_nat (length items)))))
      else Normal (i ← array_index name; items !! N.to_nat i)
  | Some (JStr s) =>
      if str_eqb name (lit "length")
      then Normal (Some (JNum (inject_Z (Z.of_nat (length s)))))
      else Normal (i ← array_index name; c ← s !! N.to_nat i; Some (JStr [c]))
  | Some (JBool _) | Some (JNum _) => Normal None
  end.

(** [l.length === 0] *)
Definition is_empty {A} (l : list A) : bool :=
  match l with [] => true | _ => false end.

(** [v === s] for a string [s] *)
Definition is_string (s : str) (v : json) : bool :=
  match v with JStr t => str_eqb t s | _ => false end.

Definition is_null (v : json) : bool :=
  match v with JNull => true | _ => false end.

(** [Array.isArray(v) ? v : []] *)
Definition array_or_empty (v : option json) : list json :=
  match v with Some (JArr items) => items | _ => [] end.

(** The own enumerable properties an object spread [{...v}] copies. *)
Definition spread (v : json) : list (str * json) :=
  match v with
  | JObj fields => fields
  | JArr items => imap (λ i x, (N_to_str (N.of_nat i), x)) items
  | JStr s => imap (λ i c, (N_to_str (N.of_nat i), JStr [c])) s
  | _ => []
  end.

(** ** The outside world *)

Record response := {
  ok : bool;
  http_status : N;
  statusText : str;
  body : str;
}.

Inductive fetch_outcome :=
  | Resolved (r : response)
  | Rejected (e : thrown).

(** Everything the actions take from their surroundings. *)
Record host := {
  APIFY_API_TOKEN : option str;              (* process.env.APIFY_API_TOKEN *)
  GEMINI_API_KEY : option str;               (* process.env.GEMINI_API_KEY *)
  fetch : nat → fetch_outcome;               (* the n-th call of fetch *)
  generateContent : nat → completion str;    (* the n-th model.generateContent(prompt),
                                                 followed by response.text() *)
  clock : N;                                 (* Date.now() when the action starts *)
  uuidv4 : str;                              (* the identifier uuidv4() draws *)
}.

Inductive record_status := running | completed | failed.

Record price_ranges := { range_min : Q; range_max : Q; range_average : Q }.

Record product_analysis := {
  priceRanges : price_ranges;
  topRatedProducts : list json;
  mostReviewedProducts : list json;
  recommendations : list json;
}.

Record ProductComparisonResult := {
  id : str;
  date : N;
  website : str;
  category : option str;
  status : record_status;
  products : list json;
  analysis : option product_analysis;
  error : option str;
}.

Record world := {
  fetches : nat;               (* calls of fetch so far *)
  generations : nat;           (* calls of generateContent so far *)
  timers : list N;             (* the delays waited for, oldest first *)
  saved : list (str * ProductComparisonResult);
                               (* what storage.set was given, oldest first *)
}.

Definition new_world : world :=
  {| fetches := 0; generations := 0; timers := []; saved := [] |}.

(** The four ways the world changes. *)
Definition count_fetch (w : world) : world :=
  {| fetches := S (fetches w); generations := generations w;
     timers := timers w; saved := saved w |}.

Definition count_generation (w : world) : world :=
  {| fetches := fetches w; generations := S (generations w);
     timers := timers w; saved := saved w |}.

Definition add_timer (ms : N) (w : world) : world :=
  {| fetches := fetches w; generations := generations w;
     timers := timers w ++ [ms]; saved := saved w |}.

Definition add_saved (key : str) (r : ProductComparisonResult) (w : world) : world :=
  {| fetches := fetches w; generations := generations w;
     timers := timers w; saved := saved w ++ [(key, r)] |}.

(** ** Awaited computations *)

Definition io (A : Type) : Type := world → completion A * world.

#[global] Instance io_ret : MRet io := λ A a w, (Normal a, w).

#[global] Instance io_bind : MBind io := λ A B f m w,
  match m w with
  | (Normal a, w') => f a w'
  | (Abrupt e, w') => (Abrupt e, w')
  end.

Definition throw {A} (e : thrown) : io A := λ w, (Abrupt e, w).

(** [try { body } catch (error) { handler }] *)
Definition try_catch {A} (body : io A) (handler : thrown → io A) : io A := λ w,
  match body w with
  | (Normal a, w') => (Normal a, w')
  | (Abrupt e, w') => handler e w'
  end.

(** A synchronous evaluation inside an asynchronous function. *)
Definition eval {A} (c : completion A) : io A := λ w, (c, w).

(** [await new Promise((resolve) => setTimeout(resolve, ms))] *)
Definition sleep (ms : N) : io unit := λ w, (Normal (), add_timer ms w).

(** [await fetch(url, options)]; the request itself is not observed. *)
Definition call_fetch (h : host) : io response := λ w,
  match fetch h (fetches w) with
  | Resolved r => (Normal r, count_fetch w)
  | Rejected e => (Abrupt e, count_fetch w)
  end.

(** [(await model.generateContent(prompt)).response.text()] *)
Definition call_model (h : host) : io str := λ w,
  (generateContent h (generations w), count_generation w).

(** [await storage.set(key, record)] as the actions see it. *)
Definition storage_set (key : str) (r : ProductComparisonResult) : io unit := λ w,
  (Normal (), add_saved key r w).

(** [Date.now()]: the clock advances by the delays waited for. *)
Definition Date_now (h : host) : io N := λ w,
  (Normal (fold_left N.add (timers w) (clock h)), w).

(** A call whose promise is not awaited: its effects happen, its
    completion is dropped. *)
Definition detached {A} (m : io A) : io unit := λ w, (Normal (), snd (m w)).

(** ** fetchWithRetry (product-comparison-action.ts) *)

Fixpoint fetchWithRetry (h : host) (retries : nat) (backoff : N) : io response :=
  try_catch (call_fetch h)
    (λ error,
       match retries with
       | S r => _ ← sleep backoff; fetchWithRetry h r (backoff * 2)
       | O => throw error
       end).

(** [await response.json()], and on failure [await response.text()] before
    rethrowing; the body was consumed by then, so the second read fails. *)
Definition safeJsonParse (r : response) : completion json :=
  match JSON_parse (body r) with
  | Some v => Normal v
  | None => Abrupt (TypeError "Body is unusable")
  end.

(** The call sites pass neither [retries] nor [backoff]. *)
Definition fetchWithRetry_default (h : host) : io response := fetchWithRetry h 3 1000.

(** An environment variable that is unset, or set to the empty string, is
    falsy. *)
Definition env_value (v : option str) : option str :=
  match v with
  | Some (c :: s) => Some (c :: s)
  | _ => None
  end.

(** ** extractProductData (extract-product-data-action.ts) *)

(** One entry of the structured result. *)
Record product_entry := {
  name : str;
  price : str;
  imageUrl : str;
  rating : Q;
  reviews : Q;
  url : str;
}.

(** The object literal of an entry. *)
Definition entry_json (p : product_entry) : json :=
  JObj [ (lit "name", JStr (name p)); (lit "price", JStr (price p));
         (lit "imageUrl", JStr (imageUrl p)); (lit "rating", JNum (rating p));
         (lit "reviews", JNum (reviews p)); (lit "url", JStr (url p)) ].

Definition is_table_row (row : str) : bool :=
  startsWith (lit "|") row && endsWith (lit "|") row
  && negb (includes (lit "---") row) && negb (includes (lit "Product Name") row).

(** [text.split("\n").map((row) => row.trim()).filter(...)] *)
Definition tableRows (text : str) : list str :=
  filter (λ row, Is_true (is_table_row row)) (trim <$> str_split 10%N text).

(** [row.split("|").map((col) => col.trim()).filter(Boolean)] *)
Definition columns (row : str) : list str :=
  filter (λ col, col ≠ []) (trim <$> str_split (ch "|") row).

Definition entry_of_row (row : str) : option product_entry :=
  match columns row with
  | c0 :: c1 :: c2 :: _ =>
      Some {| name := c0; price := c1; imageUrl := c2;
              rating := 0; reviews := 0; url := [] |}
  | _ => None
  end.

(** [tableRows.map(...).filter(Boolean)] *)
Definition structuredProducts (text : str) : list product_entry :=
  omap entry_of_row (tableRows text).

(** The checks on the parsed response, down to
    [data.candidates[0].content.parts[0].text]; [None] is the early
    [return rawData]. *)
Definition response_text (data : json) : completion (option (option json)) :=
  match get_prop (Some data) (lit "candidates") with
  | Abrupt e => Abrupt e
  | Normal candidates =>
      if negb (truthy candidates) then Normal None else
      match get_prop candidates (lit "0") with
      | Abrupt e => Abrupt e
      | Normal c0 =>
          if negb (truthy c0) then Normal None else
          match get_prop c0 (lit "content") with
          | Abrupt e => Abrupt e
          | Normal content =>
              if negb (truthy content) then Normal None else
              match get_prop content (lit "parts") with
              | Abrupt e => Abrupt e
              | Normal parts =>
                  if negb (truthy parts) then Normal None else
                  match get_prop parts (lit "0") with
                  | Abrupt e => Abrupt e
                  | Normal p0 =>
                      if negb (truthy p0) then Normal None
                      else match get_prop p0 (lit "text") with
                           | Abrupt e => Abrupt e
                           | Normal text => Normal (Some text)
                           end
                  end
              end
          end
      end
  end.

(** [text.substring(0, 200)] and [text.split("\n")] need a string. *)
Definition as_string (v : option json) : completion str :=
  match v with
  | Some (JStr s) => Normal s
  | _ => Abrupt (TypeError "text.substring is not a function")
  end.

Definition extractProductData (h : host) (rawData : list json) : io (list json) :=
  match env_value (GEMINI_API_KEY h) with
  | None => mret rawData
  | Some geminiApiKey =>
      if is_empty rawData then mret []
      else
        try_catch
          (response ← fetchWithRetry_default h;
           if negb (ok response) then mret rawData
           else
             data ← eval (safeJsonParse response);
             found ← eval (response_text data);
             match found with
             | None => mret rawData
             | Some t =>
                 text ← eval (as_string t);
                 let structured := structuredProducts text in
                 if is_empty structured then mret rawData
                 else mret (entry_json <$> structured)
             end)
          (λ error, mret rawData)
  end.

(** ** The rating of a scraped product (the page function of scrapeWebsite) *)

(** The first match of [/([0-9]\.[0-9])|([0-9])/]: at the first digit, that
    digit with a point and a digit after it if they are there, else the
    digit alone. *)
Fixpoint ratingMatch (ratingText : str) : option str :=
  match ratingText with
  | [] => None
  | c :: s =>
      if is_digit c then
        Some (match s with
              | p :: f :: _ => if (p =? ch ".")%N && is_digit f then [c; p; f] else [c]
              | _ => [c]
              end)
      else ratingMatch s
  end.

(** [parseFloat] of such a match. *)
Definition parseFloat_match (m : str) : Q :=
  match m with
  | [c; _; f] => decimal_value false (digits_value [c; f]) (-1)
  | _ => decimal_value false (digits_value m) 0
  end.

(** [let rating = 0; if (ratingText) { const ratingMatch = ...;
    if (ratingMatch) rating = parseFloat(ratingMatch[0]) }] *)
Definition scraped_rating (ratingText : str) : Q :=
  match ratingMatch ratingText with
  | Some m => parseFloat_match m
  | None => 0
  end.

(** ** cleanProductData (client-results.tsx) *)

(** [typeof v === "number" ? Math.min(5, Math.max(0, v)) : 0] *)
Definition clean_rating (v : option json) : Q :=
  match v with
  | Some (JNum r) => Qmin 5 (Qmax 0 r)
  | _ => 0
  end.

(** [typeof v === "number" ? v : 0] *)
Definition number_or_zero (v : option json) : Q :=
  match v with Some (JNum r) => r | _ => 0 end.

(** [v || d] *)
Definition or_default (v : option json) (d : json) : json :=
  if truthy v then default d v else d.

(** A string method called on [v]: a [TypeError] unless [v] is a string. *)
Definition string_receiver (v : json) : completion str :=
  match v with
  | JStr s => Normal s
  | _ => Abrupt (TypeError "not a function")
  end.

(** [price.match(...)] finds one of the five currency signs: dollar,
    rupee, euro, pound, yen. *)
Definition has_currency_sign (s : str) : bool :=
  existsb (λ c, existsb (N.eqb c) [36; 8377; 8364; 163; 165]%N) s.

(** [product.k] for a product that is neither [null] nor [undefined]. *)
Definition field (k : string) (product : json) : option json :=
  match get_prop (Some product) (lit k) with
  | Normal v => v
  | Abrupt _ => None
  end.

(** [{ ...product, name, price, reviews, rating, url, imageUrl }] *)
Definition cleaned_object (product : json) (nm pr : json) : json :=
  JObj (own_set (lit "imageUrl") (or_default (field "imageUrl" product) (JStr []))
         (own_set (lit "url") (or_default (field "url" product) (JStr []))
           (own_set (lit "rating") (JNum (clean_rating (field "rating" product)))
             (own_set (lit "reviews") (JNum (number_or_zero (field "reviews" product)))
               (own_set (lit "price") pr
                 (own_set (lit "name") nm (spread product))))))).

(** [cleanProductData(product)]; [None] is [null].  The cleaning of the
    name, [cleanHtmlFromName], is a parameter. *)
Definition cleanProductData (cleanHtmlFromName : str → str) (product : json)
  : completion (option json) :=
  if negb (truthy (Some product)) then Normal None
  else
    let raw_name := field "name" product in
    match string_receiver (or_default raw_name (JStr [])) with
    | Abrupt e => Abrupt e
    | Normal nm =>
        let cleanedName := if str_eqb nm [] then [] else cleanHtmlFromName nm in
        if str_eqb cleanedName [] || (length cleanedName <? 3)%nat then
          if truthy raw_name && (3 <=? length nm)%nat then
            Normal (Some (cleaned_object product (JStr nm)
                            (or_default (field "price" product) (JStr (lit "Price not available")))))
          else Normal None
        else
          let price0 := or_default (field "price" product) (JStr []) in
          match (if truthy (Some price0)
                 then match string_receiver price0 with
                      | Normal s => Normal (JStr (if has_currency_sign s then s
                                                  else 8377%N :: s))
                      | Abrupt e => Abrupt e
                      end
                 else Normal price0) with
          | Abrupt e => Abrupt e
          | Normal price1 =>
              Normal (Some (cleaned_object product (JStr cleanedName)
                              (or_default (Some price1) (JStr (lit "Price not available")))))
          end
    end.

(** ** scrapeWebsite, analyzeProducts, runProductComparison
       (product-comparison-action.ts) *)

(** [encodeURIComponent] throws a [URIError] on a lone surrogate. *)
Fixpoint well_formed (s : str) : bool :=
  match s with
  | [] => true
  | c :: s' =>
      if is_high_surrogate c then
        match s' with
        | d :: s'' => is_low_surrogate d && well_formed s''
        | [] => false
        end
      else negb (is_low_surrogate c) && well_formed s'
  end.

(** The start URL: only [encodeURIComponent(category)], evaluated when the
    category is not empty, can throw.  The URL itself is not observed. *)
Definition startUrl_check (category : option str) : completion unit :=
  match env_value category with
  | Some c => if well_formed c then Normal ()
              else Abrupt (ErrorObject (lit "URI malformed"))
  | None => Normal ()
  end.

(** [datasetItems.flat()] *)
Definition flat (items : list json) : list json :=
  items ≫= (λ x, match x with JArr l => l | _ => [x] end).

(** How the polling loop is left: by a [return] of the function, or by
    falling out of the [while] with the current [taskResult]. *)
Inductive loop_exit :=
  | Returned (result : list json)
  | Finished (taskResult : option (list json)).

Definition is_status (s : string) (v : option json) : bool :=
  match v with Some t => is_string (lit s) t | None => false end.

(** The branch for a run that has succeeded: fetch the dataset.  For a
    dataset that is not an array the function ends with the empty list
    either way: if [length > 0] is false by [return []], and otherwise
    because [flat] is not a function and the [TypeError] reaches the
    handler of [scrapeWebsite]; the model takes the first. *)
Definition fetch_dataset (h : host) : io loop_exit :=
  datasetResponse ← fetchWithRetry_default h;
  if negb (ok datasetResponse) then
    @throw loop_exit (ErrorObject (lit "Failed to fetch Cheerio Scraper results: "
                        ++ statusText datasetResponse))
  else
    datasetItems ← eval (safeJsonParse datasetResponse);
    match datasetItems with
    | JNull => @throw loop_exit (TypeError "Cannot read properties of null")
    | JArr [] => mret (Returned [])
    | JArr items =>
        let taskResult := flat items in
        if existsb is_null (take 5 taskResult)
        then @throw loop_exit (TypeError "Cannot read properties of null")
        else mret (Finished (Some taskResult))
    | _ => mret (Returned [])
    end.

(** The [while (!taskComplete && attempts < maxAttempts)] loop, with
    [remaining = maxAttempts - attempts]. *)
Fixpoint poll (h : host) (remaining : nat) : io loop_exit :=
  match remaining with
  | O => mret (Finished None)
  | S n =>
      _ ← sleep 5000;
      statusResponse ← fetchWithRetry_default h;
      if negb (ok statusResponse) then poll h n
      else
        statusData ← eval (safeJsonParse statusResponse);
        data ← eval (get_prop (Some statusData) (lit "data"));
        st ← eval (get_prop data (lit "status"));
        if is_status "SUCCEEDED" st then fetch_dataset h
        else if is_status "FAILED" st || is_status "TIMED-OUT" st
                || is_status "ABORTED" st
        then @throw loop_exit (ErrorObject
                      (lit "Cheerio Scraper task failed with status: "
                       ++ match st with Some (JStr t) => t | _ => [] end))
        else poll h n
  end.

Definition maxAttempts : nat := 30.

Definition scrapeWebsite (h : host) (website : str) (category : option str)
  : io (list json) :=
  try_catch
    (match env_value (APIFY_API_TOKEN h) with
     | None => @throw (list json) (ErrorObject (lit "APIFY_API_TOKEN environment variable is not set"))
     | Some apifyToken =>
         _ ← eval (startUrl_check category);
         response ← fetchWithRetry_default h;
         if negb (ok response) then
           @throw (list json) (ErrorObject (lit "Failed to start Cheerio Scraper: "
                               ++ N_to_str (http_status response) ++ lit " "
                               ++ statusText response))
         else
           data ← eval (safeJsonParse response);
           run ← eval (get_prop (Some data) (lit "data"));
           runId ← eval (get_prop run (lit "id"));
           exit ← poll h maxAttempts;
           match exit with
           | Returned result => mret result
           | Finished (Some taskResult) => mret taskResult
           | Finished None =>
               @throw (list json) (ErrorObject (lit "Cheerio Scraper task did not complete after "
                                   ++ N_to_str (N.of_nat maxAttempts) ++ lit " attempts"))
           end
     end)
    (λ error, mret []).

(** [getGeminiApiKey()] (lib/ai-config) *)
Definition getGeminiApiKey (h : host) : completion str :=
  match env_value (GEMINI_API_KEY h) with
  | Some apiKey => Normal apiKey
  | None => Abrupt (ErrorObject (lit "GEMINI_API_KEY environment variable is not set"))
  end.

(** The first match of [/(\d+,)*\d+(\.\d+)?/]: from the first digit, runs
    of digits joined by commas, then a point and digits if they follow. *)
Fixpoint comma_groups (fuel : nat) (s : str) : str * str :=
  let '(ds, rest) := span is_digit s in
  match fuel, rest with
  | S fuel', c :: (d :: _) as rest' =>
      if (c =? ch ",")%N && is_digit d then
        let '(more, rest'') := comma_groups fuel' rest' in (ds ++ c :: more, rest'')
      else (ds, rest)
  | _, _ => (ds, rest)
  end.

Fixpoint priceMatch (s : str) : option str :=
  match s with
  | [] => None
  | c :: s' =>
      if is_digit c then
        let '(whole, rest) := comma_groups (length s) s in
        Some (match rest with
              | p :: (d :: _) as frac =>
                  if (p =? ch ".")%N && is_digit d
                  then whole ++ p :: fst (span is_digit frac) else whole
              | _ => whole
              end)
      else priceMatch s'
  end.

(** [Number.parseFloat] of digits with an optional fraction. *)
Definition parseFloat_decimal (s : str) : Q :=
  let '(ip, rest) := span is_digit s in
  let fp := match rest with _ :: frac => fst (span is_digit frac) | [] => [] end in
  decimal_value false (digits_value (ip ++ fp)) (- Z.of_nat (length fp)).

Definition Qlt_bool (a b : Q) : bool := negb (Qle_bool b a).

(** The callback of [products.map] that reads a price. *)
Definition price_of (p : json) : completion Q :=
  match get_prop (Some p) (lit "price") with
  | Abrupt e => Abrupt e
  | Normal pr =>
      let priceStr := or_default pr (JStr []) in
      if negb (truthy (Some priceStr))
         || is_string (lit "Price not available") priceStr
      then Normal 0%Q
      else match string_receiver priceStr with
           | Abrupt e => Abrupt e
           | Normal s =>
               match priceMatch s with
               | None => Normal 0%Q
               | Some m =>
                   let priceNum :=
                     parseFloat_decimal (filter (λ c, c ≠ ch ",") m) in
                   if Qlt_bool 0 priceNum && Qlt_bool priceNum 10
                   then Normal (priceNum * 1000)%Q
                   else if Qle_bool 10 priceNum && Qlt_bool priceNum 100
                   then Normal (priceNum * 10)%Q
                   else Normal priceNum
               end
           end
  end.

Fixpoint map_completion {A B} (f : A → completion B) (l : list A) : completion (list B) :=
  match l with
  | [] => Normal []
  | x :: l' =>
      match f x with
      | Abrupt e => Abrupt e
      | Normal y =>
          match map_completion f l' with
          | Abrupt e => Abrupt e
          | Normal ys => Normal (y :: ys)
          end
      end
  end.

(** A stable sort by descending key, as [sort((a, b) => key(b) - key(a))]. *)
Fixpoint insert_desc (key : json → Q) (x : json) (l : list json) : list json :=
  match l with
  | [] => [x]
  | y :: l' => if Qlt_bool (key x) (key y) then y :: insert_desc key x l'
               else x :: l
  end.
Definition sort_desc (key : json → Q) (l : list json) : list json :=
  foldr (insert_desc key) [] l.

Definition number_field (k : string) (p : json) : Q :=
  match get_prop (Some p) (lit k) with
  | Normal (Some (JNum r)) => r
  | _ => 0%Q
  end.

(** [[...products].filter(p => typeof p.k === "number" && p.k > 0)
      .sort((a, b) => b.k - a.k).slice(0, 5)] *)
Definition top_five (k : string) (products : list json) : list json :=
  take 5 (sort_desc (number_field k)
            (filter (λ p, Is_true (Qlt_bool 0 (number_field k p))) products)).

Definition Qlist_min (x : Q) (l : list Q) : Q := fold_left Qmin l x.
Definition Qlist_max (x : Q) (l : list Q) : Q := fold_left Qmax l x.

Definition price_statistics (prices : list Q) : price_ranges :=
  match prices with
  | [] => {| range_min := 0; range_max := 0; range_average := 0 |}%Q
  | p :: ps =>
      {| range_min := Qlist_min p ps; range_max := Qlist_max p ps;
         range_average := (fold_left Qplus prices 0
                           / inject_Z (Z.of_nat (length prices)))%Q |}
  end.

Definition no_analysis : product_analysis :=
  {| priceRanges := {| range_min := 0; range_max := 0; range_average := 0 |}%Q;
     topRatedProducts := []; mostReviewedProducts := []; recommendations := [] |}.

(** [text.match(/\{[\s\S]*\}/)]: from the first opening brace to the last
    closing brace after it. *)
Definition braces (text : str) : option str :=
  i ← indexOf (lit "{") text;
  j ← lastIndexOf (lit "}") text;
  if (i <? j)%nat then Some (substring i (S j) text) else None.

Definition analyzeProductData (h : host) (products : list json) : io product_analysis :=
  try_catch
    (apiKey ← eval (getGeminiApiKey h);
     all_prices ← eval (map_completion price_of products);
     let prices := filter (λ p, Is_true (Qlt_bool 0 p)) all_prices in
     text ← call_model h;
     analysisResult ←
       match braces text with
       | Some jsonMatch =>
           match JSON_parse jsonMatch with
           | Some v => mret v
           | None => @throw json (ErrorObject (lit "Unexpected token in JSON"))
           end
       | None => mret (JObj [])
       end;
     recs ← eval (get_prop (Some analysisResult) (lit "recommendations"));
     mret {| priceRanges := price_statistics prices;
             topRatedProducts := top_five "rating" products;
             mostReviewedProducts := top_five "reviews" products;
             recommendations := array_or_empty recs |})
    (λ error, mret no_analysis).

(** [{ ...product, id: `product-${index}-${now}`, imageKey: `img-${index}-${now}` }] *)
Definition with_ids (now : N) (index : nat) (product : json) : json :=
  let tag (pre : string) :=
    JStr (lit pre ++ N_to_str (N.of_nat index) ++ lit "-" ++ N_to_str now) in
  JObj (own_set (lit "imageKey") (tag "img-"%string)
         (own_set (lit "id") (tag "product-"%string) (spread product))).

Definition result_key (id : str) : str := lit "product-comparison:" ++ id.

Definition analyzeProducts (h : host) (id website : str) (category : option str)
  : io unit :=
  try_catch
    (rawData ← scrapeWebsite h website category;
     extracted ←
       try_catch
         (structuredProducts ← extractProductData h rawData;
          if is_empty structuredProducts && negb (is_empty rawData)
          then mret rawData else mret structuredProducts)
         (λ error, mret rawData);
     now ← Date_now h;
     let structuredProducts := imap (with_ids now) extracted in
     analysis ← analyzeProductData h structuredProducts;
     date ← Date_now h;
     storage_set (result_key id)
       {| id := id; date := date; website := website; category := category;
          status := completed; products := structuredProducts;
          analysis := Some analysis; error := None |})
    (λ error,
       date ← Date_now h;
       storage_set (result_key id)
         {| id := id; date := date; website := website; category := category;
            status := failed; products := []; analysis := None;
            error := Some (error_text error) |}).

(** [formData.get(...)] gives [null] ([None]) for a missing field. *)
Definition runProductComparison (h : host) (website category : option str) : io str :=
  try_catch
    (match env_value website with
     | None => @throw str (ErrorObject (lit "Website is required"))
     | Some site =>
         let id := uuidv4 h in
         date ← Date_now h;
         _ ← storage_set (result_key id)
               {| id := id; date := date; website := site; category := category;
                  status := running; products := []; analysis := None;
                  error := None |};
         _ ← detached (analyzeProducts h id site category);
         mret id
     end)
    (λ error,
       @throw str (ErrorObject (lit "Failed to run product comparison: " ++ error_text error))).

(** ** compareWebsites and generateFallbackSWOT (the website analysis action) *)

Module analyze.

Record WebsiteData := {
  url : str;
  title : str;
  description : str;
  keywords : list str;
  headings : list str;
  content : str;
  links : list str;
  images : list str;
  lastScraped : N;
}.

Record swot := {
  strengths : list json;
  weaknesses : list json;
  opportunities : list json;
  threats : list json;
}.

Definition generateFallbackSWOT (mainWebsite : WebsiteData)
    (competitors : list WebsiteData) : swot :=
  let quoted t := [34%N] ++ t ++ [34%N] in
  {| strengths :=
       (if (5 <? length (title mainWebsite))%nat
        then [JStr (lit "Clear website title: " ++ quoted (title mainWebsite))]
        else [])
       ++ (if (10 <? length (description mainWebsite))%nat
           then [JStr (lit "Descriptive meta description that explains the website purpose")]
           else [])
       ++ (if negb (is_empty (keywords mainWebsite))
           then [JStr (lit "Defined keywords that can help with SEO: "
                       ++ str_join (lit ", ") (keywords mainWebsite))]
           else []);
     weaknesses :=
       (if (length (description mainWebsite) <? 10)%nat
        then [JStr (lit "Missing or very short meta description")] else [])
       ++ (if is_empty (keywords mainWebsite)
           then [JStr (lit "No keywords defined for SEO")] else [])
       ++ (if (length (content mainWebsite) <? 1000)%nat
           then [JStr (lit "Limited content length which may affect SEO rankings")]
           else []);
     opportunities :=
       [ JStr (lit "Expand website content to improve search engine visibility");
         JStr (lit "Add more descriptive headings to improve content structure");
         JStr (lit "Optimize meta tags and descriptions for better SEO performance") ];
     threats :=
       (if negb (is_empty competitors)
        then [JStr (lit "Competition from "
                    ++ N_to_str (N.of_nat (length competitors))
                    ++ lit " similar websites in the same space")]
        else [])
       ++ [ JStr (lit "Rapidly changing SEO algorithms requiring constant optimization");
            JStr (lit "Potential for competitors to target the same keywords and audience") ] |}.

Definition fence : str := lit "```".

(** The first capture group of the first match of the pattern for a
    fenced block: three backticks, an optional tag [json], white space,
    then as little as possible up to the next three backticks.  The match
    starts at the first fence of the text, if another fence follows it;
    the tag and the white space hold no backtick, so they are consumed
    whenever they are there. *)
Definition codeBlockMatch (text : str) : option str :=
  i ← indexOf fence text;
  let after := drop (i + 3) text in
  let untagged := if startsWith (lit "json") after then drop 4 after else after in
  let inner := drop_spaces untagged in
  j ← indexOf fence inner;
  Some (take j inner).

(** [jsonStr]: the text, or the trimmed contents of its fenced block. *)
Definition jsonStr (text : str) : str :=
  if includes (lit "```json") text || includes fence text then
    match codeBlockMatch text with
    | Some (c :: block) => trim (c :: block)
    | _ => text
    end
  else text.

(** The object both [try] blocks build from the parsed value; reading a
    property of [null] throws. *)
Definition swot_of (swotAnalysis : json) : completion swot :=
  match get_prop (Some swotAnalysis) (lit "strengths"),
        get_prop (Some swotAnalysis) (lit "weaknesses"),
        get_prop (Some swotAnalysis) (lit "opportunities"),
        get_prop (Some swotAnalysis) (lit "threats") with
  | Normal s, Normal w, Normal o, Normal t =>
      Normal {| strengths := array_or_empty s; weaknesses := array_or_empty w;
                opportunities := array_or_empty o; threats := array_or_empty t |}
  | _, _, _, _ => Abrupt (TypeError "Cannot read properties of null")
  end.

(** [JSON.parse(s)] followed by the construction of the result, inside
    one [try]: [None] when either throws. *)
Definition parse_swot (s : str) : option swot :=
  match JSON_parse s with
  | Some v => match swot_of v with Normal r => Some r | Abrupt _ => None end
  | None => None
  end.

(** The substring from the first opening brace to the last closing
    brace, when the latter comes after the former. *)
Definition extractedJson (s : str) : option str :=
  match indexOf (lit "{") s, lastIndexOf (lit "}") s with
  | Some jsonStartIndex, Some jsonEndIndex =>
      if (jsonStartIndex <? jsonEndIndex)%nat
      then Some (substring jsonStartIndex (S jsonEndIndex) s) else None
  | _, _ => None
  end.

(** Lines 1270-1327: from the response text to the result. *)
Definition extract (text : str) (fallback : swot) : swot :=
  match parse_swot (jsonStr text) with
  | Some result => result
  | None =>
      match extractedJson (jsonStr text) ≫= parse_swot with
      | Some result => result
      | None => fallback
      end
  end.

(** [new Date(t).toISOString()] throws a [RangeError] beyond the range of
    time values. *)
Definition toISOString_check (t : N) : completion unit :=
  if (t <=? 8640000000000000)%N then Normal ()
  else Abrupt (ErrorObject (lit "Invalid time value")).

Definition compareWebsites (h : host) (mainWebsite : WebsiteData)
    (competitors : list WebsiteData) : io swot :=
  try_catch
    (apiKey ← eval (getGeminiApiKey h);
     _ ← eval (toISOString_check (lastScraped mainWebsite));
     _ ← eval (map_completion (λ comp, toISOString_check (lastScraped comp)) competitors);
     text ← call_model h;
     mret (extract text (generateFallbackSWOT mainWebsite competitors)))
    (λ error, mret (generateFallbackSWOT mainWebsite competitors)).


End analyze.

(** ** Vocabulary of the statements *)

(** The delays of the first [k] retries of [fetchWithRetry]. *)
Definition backoff_delays (backoff : N) (k : nat) : list N :=
  (λ i, (backoff * 2 ^ N.of_nat i)%N) <$> seq 0 k.

(** The characters the first seven replacements of [sanitizeKey] target. *)
Definition replaced_characters : str :=
  [ch ":"; ch "/"; 92; ch "?"; ch "&"; ch "="; ch "."]%N.

(** A process without file system: everything is kept in [memoryStore]. *)
Definition in_memory (dir : path) : platform :=
  {| hasFileSystemAccess := false; cwd := dir; disk_writable := false |}.

(** Calls that change the store, and the store after a series of them. *)
Inductive operation :=
  | SetKey (key : str) (value : json)
  | DelKey (key : str).

Definition perform (pf : platform) (st : store) (op : operation) : store :=
  match op with
  | SetKey key value => storage.set pf key value st
  | DelKey key => storage.del pf key st
  end.

Definition after (pf : platform) (ops : list operation) : store :=
  fold_left (perform pf) ops empty_store.

(** A key that [storage.keys] lists for a prefix. *)
Definition listed (prefix key : str) : Prop :=
  startsWith prefix key = true ∧ startsWith (lit "key_map:") key = false.

#[global] Instance listed_dec prefix key : Decision (listed prefix key).
Proof. unfold listed. apply _. Defined.

(** The root directory. *)
Definition root : path := {| absolute := true; segments := [] |}.










(** Whether a value is a number, as [typeof v === "number"] tests. *)
Definition is_number (v : option json) : bool :=
  match v with Some (JNum _) => true | _ => false end.

(** A site with nothing scraped, and a response that is valid JSON as a
    whole while one of its strings holds a fenced word. *)
Definition blank_site : analyze.WebsiteData :=
  {| analyze.url := lit "https://example.com"; analyze.title := [];
     analyze.description := []; analyze.keywords := []; analyze.headings := [];
     analyze.content := []; analyze.links := []; analyze.images := [];
     analyze.lastScraped := 0 |}.


(** A computation that leaves the saved records alone. *)
Definition quiet {A} (m : io A) : Prop := ∀ w, saved (m w).2 = saved w.

(** A computation that cannot throw. *)
Definition total {A} (m : io A) : Prop := ∀ w, ∃ a, (m w).1 = Normal a.

(** The invariant of the persisted records. *)
Definition record_invariant (r : ProductComparisonResult) : Prop :=
  (status r = running → products r = [] ∧ analysis r = None)
  ∧ (status r = completed → analysis r ≠ None)
  ∧ (status r = failed → ∃ message, error r = Some message ∧ message ≠ []).

(** A remote run that never leaves the state RUNNING: the run is started
    (first call of [fetch]), and every later call answers RUNNING.  No
    Gemini key is set. *)
Definition json_response (text : string) : response :=
  {| ok := true; http_status := 200; statusText := lit "OK"; body := dq text |}.

Definition always_running : host :=
  {| APIFY_API_TOKEN := Some (lit "token");
     GEMINI_API_KEY := None;
     fetch := λ n, match n with
                   | O => Resolved (json_response "{'data':{'id':'run1'}}")
                   | S _ => Resolved (json_response "{'data':{'status':'RUNNING'}}")
                   end;
     generateContent := λ _, Abrupt (ErrorObject (lit "no model"));
     clock := 1700000000000;
     uuidv4 := lit "job-1" |}.

(** ** GET /api/product-comparison/[id] (route.ts) *)





(** ** More vocabulary: the store *)

(** A Node.js process whose storage directory can be written. *)
Definition on_disk (dir : path) : platform :=
  {| hasFileSystemAccess := true; cwd := dir; disk_writable := true |}.

(** [typeof value === "string"] *)
Definition is_text (v : json) : bool :=
  match v with JStr _ => true | _ => false end.

(** A value that printing and parsing give back. *)
Definition serializable (v : json) : Prop := JSON_parse (JSON_stringify v) = Some v.



(** ** More vocabulary: the job *)

(** The time waited for, in milliseconds. *)
Definition waited (delays : list N) : N := fold_right N.add 0%N delays.

(** A bound on what a computation costs, whatever the world it starts
    in: at most [f] calls of [fetch], at most [g] calls of the model, and
    at most [t] milliseconds of waiting. *)
Definition within (f g : nat) (t : N) {A} (m : io A) : Prop :=
  ∀ w,
    fetches w ≤ fetches (m w).2 ≤ fetches w + f
    ∧ generations w ≤ generations (m w).2 ≤ generations w + g
    ∧ ∃ delays, timers (m w).2 = timers w ++ delays ∧ (waited delays <= t)%N.

(** [statusData.data.status] of the response to a status request. *)
Definition run_status (r : response) : completion (option json) :=
  match safeJsonParse r with
  | Abrupt e => Abrupt e
  | Normal statusData =>
      match get_prop (Some statusData) (lit "data") with
      | Abrupt e => Abrupt e
      | Normal data => get_prop data (lit "status")
      end
  end.

(** An answer after which the loop polls again: a response that is not
    ok, or one whose status is none of the four the loop acts on. *)
Definition keeps_polling (o : fetch_outcome) : bool :=
  match o with
  | Resolved r =>
      negb (ok r)
      || match run_status r with
         | Normal st =>
             negb (is_status "SUCCEEDED" st || is_status "FAILED" st
                   || is_status "TIMED-OUT" st || is_status "ABORTED" st)
         | Abrupt _ => false
         end
  | Rejected _ => false
  end.

(** An ok answer that reports the status [s]. *)
Definition reports (s : string) (o : fetch_outcome) : bool :=
  match o with
  | Resolved r =>
      ok r && match run_status r with Normal st => is_status s st | Abrupt _ => false end
  | Rejected _ => false
  end.

(** The answer to the request that starts the run: ok, with a body
    whose [data.id] can be read. *)
Definition starts_run (o : fetch_outcome) : bool :=
  match o with
  | Resolved r =>
      ok r && match safeJsonParse r with
              | Normal data =>
                  match get_prop (Some data) (lit "data") with
                  | Normal run =>
                      match get_prop run (lit "id") with
                      | Normal _ => true
                      | Abrupt _ => false
                      end
                  | Abrupt _ => false
                  end
              | Abrupt _ => false
              end
  | Rejected _ => false
  end.

(** The items of an ok answer to the dataset request: a JSON array that
    is not empty. *)
Definition dataset_items (o : fetch_outcome) : option (list json) :=
  match o with
  | Resolved r =>
      if ok r then
        match safeJsonParse r with
        | Normal (JArr (x :: items)) => Some (x :: items)
        | _ => None
        end
      else None
  | Rejected _ => None
  end.

(** The world after [n] more requests and the waits [delays]. *)
Definition later (n : nat) (delays : list N) (w : world) : world :=
  {| fetches := fetches w + n; generations := generations w;
     timers := timers w ++ delays; saved := saved w |}.

(** A host whose requests are answered by a script, in order; no Gemini
    key is set. *)
Definition scripted (replies : list response) : host :=
  {| APIFY_API_TOKEN := Some (lit "token");
     GEMINI_API_KEY := None;
     fetch := λ n, match replies !! n with
                   | Some r => Resolved r
                   | None => Rejected (ErrorObject (lit "fetch failed"))
                   end;
     generateContent := λ _, Abrupt (ErrorObject (lit "no model"));
     clock := 1700000000000;
     uuidv4 := lit "job-1" |}.

(** Answers of the scraping service: the run is started; the run is
    still going; the run has succeeded; the run has failed; a dataset of
    one product. *)
Definition reply_started : response := json_response "{'data':{'id':'run1'}}".
Definition reply_running : response := json_response "{'data':{'status':'RUNNING'}}".
Definition reply_succeeded : response := json_response "{'data':{'status':'SUCCEEDED'}}".
Definition reply_failed : response := json_response "{'data':{'status':'FAILED'}}".
Definition reply_dataset : response :=
  json_response "[{'name':'Widget','price':'$19.99','rating':4.5}]".

(** A host on which neither key is set and no request is answered. *)
Definition unconfigured : host :=
  {| APIFY_API_TOKEN := None;
     GEMINI_API_KEY := None;
     fetch := λ _, Rejected (ErrorObject (lit "fetch failed"));
     generateContent := λ _, Abrupt (ErrorObject (lit "no model"));
     clock := 1700000000000;
     uuidv4 := lit "job-1" |}.

(** ** More vocabulary: the analysis *)

(** A list in descending order of [key]. *)
Definition descending (key : json → Q) (l : list json) : Prop :=
  ∀ i j x y, i < j → l !! i = Some x → l !! j = Some y → (key y <= key x)%Q.

(** A product whose price cannot be read: the product is [null], or its
    [price] is truthy and not a string, so that [priceStr.match] is not a
    function. *)
Definition unreadable_price (p : json) : bool :=
  match p with
  | JNull => true
  | _ => match field "price" p with
         | Some (JStr _) | None => false
         | Some v => truthy (Some v)
         end
  end.

(** A host with a Gemini key whose model answers [text]. *)
Definition answering (text : str) : host :=
  {| APIFY_API_TOKEN := None;
     GEMINI_API_KEY := Some (lit "key");
     fetch := λ _, Rejected (ErrorObject (lit "fetch failed"));
     generateContent := λ _, Normal text;
     clock := 1700000000000;
     uuidv4 := lit "job-1" |}.

(** ** More vocabulary: the website analysis *)

(** [typeof v === "object"] for a value that is neither [null] nor an
    array. *)
Definition is_object (v : json) : bool :=
  match v with JObj _ => true | _ => false end.

(** The result without a single entry. *)
Definition empty_swot : analyze.swot :=
  {| analyze.strengths := []; analyze.weaknesses := [];
     analyze.opportunities := []; analyze.threats := [] |}.

(** The dates of the sites can be printed. *)
Definition dates_print (mainWebsite : analyze.WebsiteData)
    (competitors : list analyze.WebsiteData) : Prop :=
  analyze.toISOString_check (analyze.lastScraped mainWebsite) = Normal ()
  ∧ Forall (λ comp, analyze.toISOString_check (analyze.lastScraped comp) = Normal ())
      competitors.




(** * Properties *)

(** ** Computations in [io] *)

Lemma bind_normal {A B} (m : io A) (f : A → io B) w a w' :
  m w = (Normal a, w') → (m ≫= f) w = f a w'.
Proof. intros H. unfold mbind, io_bind. by rewrite H. Qed.

Lemma bind_abrupt {A B} (m : io A) (f : A → io B) w e w' :
  m w = (Abrupt e, w') → (m ≫= f) w = (Abrupt e, w').
Proof. intros H. unfold mbind, io_bind. by rewrite H. Qed.


(** ** fetchWithRetry *)

Lemma backoff_delays_S backoff k :
  backoff_delays backoff (S k) = backoff :: backoff_delays (backoff * 2) k.
Proof.
  unfold backoff_delays. cbn [seq fmap list_fmap]. f_equal.
  - cbn. lia.
  - rewrite <- seq_shift, <- list_fmap_compose. apply list_fmap_ext.
    intros ? i ?. cbn [compose]. rewrite Nat2N.inj_succ, N.pow_succ_r'. lia.
Qed.

Lemma fetchWithRetry_resolved h retries backoff w r :
  fetch h (fetches w) = Resolved r →
  fetchWithRetry h retries backoff w = (Normal r, count_fetch w).
Proof.
  intros E. destruct retries; cbn; unfold try_catch, call_fetch; by rewrite E.
Qed.

Lemma fetchWithRetry_rejected_last h backoff w e :
  fetch h (fetches w) = Rejected e →
  fetchWithRetry h 0 backoff w = (Abrupt e, count_fetch w).
Proof. intros E. cbn. unfold try_catch, call_fetch. by rewrite E. Qed.

Lemma fetchWithRetry_rejected_retry h retries backoff w e :
  fetch h (fetches w) = Rejected e →
  fetchWithRetry h (S retries) backoff w
  = fetchWithRetry h retries (backoff * 2) (add_timer backoff (count_fetch w)).
Proof. intros E. cbn. unfold try_catch, call_fetch. by rewrite E. Qed.

(** C8.  [fetchWithRetry] makes [k + 1] calls of [fetch] for some
    [k <= retries], so at most [retries + 1]; the calls before the last
    all threw; between them it waited [backoff], [2 * backoff], ...; it
    returns the response of the first call that resolves, whatever the
    HTTP status of that response; and it throws only when [k = retries],
    and then the error of that last call. *)
Theorem fetchWithRetry_semantics (h : host) (retries : nat) (backoff : N) (w : world) :
  ∃ k : nat,
    k ≤ retries
    ∧ fetches (fetchWithRetry h retries backoff w).2 = fetches w + k + 1
    ∧ timers (fetchWithRetry h retries backoff w).2
      = timers w ++ backoff_delays backoff k
    ∧ generations (fetchWithRetry h retries backoff w).2 = generations w
    ∧ saved (fetchWithRetry h retries backoff w).2 = saved w
    ∧ (∀ i, i < k → ∃ e, fetch h (fetches w + i) = Rejected e)
    ∧ match (fetchWithRetry h retries backoff w).1 with
      | Normal r => fetch h (fetches w + k) = Resolved r
      | Abrupt e => k = retries ∧ fetch h (fetches w + k) = Rejected e
      end.
Proof.
  revert backoff w. induction retries as [|r IH]; intros backoff w.
  - exists 0. rewrite Nat.add_0_r.
    destruct (fetch h (fetches w)) as [resp|e] eqn:E.
    + rewrite (fetchWithRetry_resolved _ _ _ _ _ E). cbn. rewrite app_nil_r.
      repeat split; try lia; done.
    + rewrite (fetchWithRetry_rejected_last _ _ _ _ E). cbn. rewrite app_nil_r.
      repeat split; try lia; done.
  - destruct (fetch h (fetches w)) as [resp|e] eqn:E.
    + exists 0. rewrite (fetchWithRetry_resolved _ _ _ _ _ E), Nat.add_0_r.
      cbn. rewrite app_nil_r. repeat split; try lia; done.
    + rewrite (fetchWithRetry_rejected_retry _ _ _ _ _ E).
      destruct (IH (backoff * 2)%N (add_timer backoff (count_fetch w)))
        as (k & Hk & Hf & Ht & Hg & Hs & Hrej & Hres).
      exists (S k). rewrite Hf, Ht, Hg, Hs, backoff_delays_S. cbn.
      repeat split; try lia.
      * rewrite <- app_assoc. done.
      * intros i Hi. destruct i as [|i].
        -- rewrite Nat.add_0_r. eauto.
        -- destruct (Hrej i) as [e' He']; [lia|]. exists e'.
           rewrite <- He'. cbn. f_equal. lia.
      * destruct (fetchWithRetry h r (backoff * 2) _).1 as [resp|e'].
        -- rewrite <- Hres. cbn. f_equal. lia.
        -- destruct Hres as [-> Hres]. split; [done|].
           rewrite <- Hres. cbn. f_equal. lia.
Qed.

(** ** Strings *)

Lemma N_eqb_eq_iff (a b : N) : (a =? b)%N = true ↔ a = b.
Proof. apply N.eqb_eq. Qed.



Lemma str_eqb_eq (a b : str) : str_eqb a b = true ↔ a = b.
Proof. unfold str_eqb. rewrite bool_decide_eq_true. done. Qed.

Lemma str_eqb_refl (a : str) : str_eqb a a = true.
Proof. by apply str_eqb_eq. Qed.

Lemma str_eqb_ne (a b : str) : a ≠ b → str_eqb a b = false.
Proof. intros H. unfold str_eqb. by rewrite bool_decide_eq_false. Qed.

Lemma str_split_absent (c : N) (s : str) : c ∉ s → str_split c s = [s].
Proof.
  induction s as [|x s IH]; intros H; cbn; [done|].
  apply not_elem_of_cons in H as [Hx Hs].
  destruct (N.eqb_spec x c) as [->|_]; [done|]. by rewrite IH.
Qed.

(** ** sanitizeKey *)

Lemma elem_of_replace_char (x c : N) (r s : str) :
  x ∈ replace_char c r s ↔ (x ∈ s ∧ x ≠ c) ∨ (c ∈ s ∧ x ∈ r).
Proof.
  unfold replace_char. rewrite list_elem_of_bind. split.
  - intros (y & Hx & Hy). destruct (y =? c)%N eqn:E.
    + apply N.eqb_eq in E as ->. by right.
    + apply N.eqb_neq in E. left. apply list_elem_of_singleton in Hx as ->. done.
  - intros [[Hx Hne]|[Hc Hx]].
    + exists x. split; [|done]. apply N.eqb_neq in Hne as ->. by apply list_elem_of_singleton.
    + exists c. split; [|done]. by rewrite N.eqb_refl.
Qed.

(** The replaced character is gone, unless the replacement brings it. *)
Lemma replace_char_removes (c : N) (r s : str) : c ∉ r → c ∉ replace_char c r s.
Proof. rewrite elem_of_replace_char. intros Hr [[_ ?]|[_ ?]]; done. Qed.

(** A character absent before stays absent, unless the replacement brings it. *)
Lemma replace_char_keeps (d c : N) (r s : str) :
  d ∉ s → d ∉ r → d ∉ replace_char c r s.
Proof. rewrite elem_of_replace_char. intros Hs Hr [[? _]|[_ ?]]; done. Qed.

Lemma remove_scheme_from_subset (skip : nat) (s : str) (x : N) :
  x ∈ remove_scheme_from skip s → x ∈ s.
Proof.
  revert skip. induction s as [|c s IH]; intros skip; cbn; [done|].
  destruct skip as [|n].
  - destruct (scheme_match (c :: s)) as [[|n]|]; rewrite ?elem_of_cons;
      intros H; try (destruct H as [->|H]); eauto.
  - intros H. apply elem_of_cons. eauto.
Qed.

Lemma remove_scheme_keeps (d : N) (s : str) : d ∉ s → d ∉ remove_scheme s.
Proof. intros Hs H. apply Hs. by eapply remove_scheme_from_subset. Qed.

Lemma elem_of_replace_class (x : N) (cls : N → bool) (r s : str) :
  x ∈ replace_class cls r s → (x ∈ s ∧ cls x = false) ∨ x ∈ r.
Proof.
  unfold replace_class. rewrite list_elem_of_bind. intros (y & Hx & Hy).
  destruct (cls y) eqn:E; [by right|].
  apply list_elem_of_singleton in Hx as ->. by left.
Qed.

Lemma replace_class_removes (d : N) (cls : N → bool) (r s : str) :
  cls d = true → d ∉ r → d ∉ replace_class cls r s.
Proof.
  intros Hc Hr H. apply elem_of_replace_class in H as [[_ E]|?]; [congruence|done].
Qed.

Lemma replace_class_keeps (d : N) (cls : N → bool) (r s : str) :
  d ∉ s → d ∉ r → d ∉ replace_class cls r s.
Proof. intros Hs Hr H. apply elem_of_replace_class in H as [[? _]|?]; done. Qed.

Ltac absent_in_literal := apply (bool_decide_unpack _); vm_compute; exact I.

(** Walk through the replacements from the last to the one that removes
    the character. *)
Ltac through_replacements :=
  first
    [ apply replace_class_removes; [reflexivity | absent_in_literal]
    | apply replace_char_removes; absent_in_literal
    | apply replace_class_keeps; [through_replacements | absent_in_literal]
    | apply remove_scheme_keeps; through_replacements
    | apply replace_char_keeps; [through_replacements | absent_in_literal] ].

Lemma sanitizeKey_clean (key : str) (c : N) :
  c ∈ replaced_characters → c ∉ sanitizeKey key.
Proof.
  unfold replaced_characters. rewrite !elem_of_cons, elem_of_nil.
  unfold sanitizeKey.
  intros [->|[->|[->|[->|[->|[->|[->|[]]]]]]]]; through_replacements.
Qed.

(** ** Paths *)

(** Joining a name that is one plain segment to a directory appends it. *)
Lemma path_join_plain (dir : path) (file : str) :
  ch "/" ∉ file → file ≠ [] → file ≠ lit "." → file ≠ lit ".." →
  path_join dir file
  = {| absolute := absolute dir; segments := segments dir ++ [file] |}.
Proof.
  intros Hslash Hne Hdot Hdots. unfold path_join.
  rewrite (str_split_absent _ _ Hslash). cbn [fold_left]. unfold enter.
  rewrite (str_eqb_ne _ _ Hne), (str_eqb_ne _ _ Hdot), (str_eqb_ne _ _ Hdots).
  cbn. by rewrite rev_involutive.
Qed.

Lemma json_file_name_plain (safeKey : str) :
  ch "/" ∉ safeKey →
  (ch "/" ∉ safeKey ++ lit ".json") ∧ (safeKey ++ lit ".json" ≠ [])
  ∧ (safeKey ++ lit ".json" ≠ lit ".") ∧ (safeKey ++ lit ".json" ≠ lit "..").
Proof.
  intros H. repeat split.
  - rewrite elem_of_app. intros [?|Hj]; [done|]. revert Hj. absent_in_literal.
  - destruct safeKey; discriminate.
  - intros E. apply (f_equal length) in E. rewrite length_app in E. cbn in E. lia.
  - intros E. apply (f_equal length) in E. rewrite length_app in E. cbn in E. lia.
Qed.

(** C9.  The name [sanitizeKey] returns holds none of the characters
    colon, slash, backslash, question mark, ampersand, equals sign and
    full stop; hence the path [storage.set] builds, the storage directory
    joined with that name and the suffix [.json], is the storage directory
    with exactly one more segment, the file name: a file directly inside
    it.  That is the file [set] writes.  Equal keys give equal paths. *)
Theorem sanitizeKey_confines_files (pf : platform) (key : str) :
  (∀ c, c ∈ replaced_characters → c ∉ sanitizeKey key)
  ∧ file_of_key pf key
    = {| absolute := absolute (STORAGE_DIR pf);
         segments := segments (STORAGE_DIR pf) ++ [sanitizeKey key ++ lit ".json"] |}
  ∧ (∀ value st,
       hasFileSystemAccess pf = true → disk_writable pf = true →
       ∃ data, disk (storage.set pf key value st)
               = (file_of_key pf key, data)
                 :: filter (λ e, e.1 ≠ file_of_key pf key) (disk st))
  ∧ (∀ key', key = key' → file_of_key pf key = file_of_key pf key').
Proof.
  assert (Hslash : ch "/" ∉ sanitizeKey key).
  { apply sanitizeKey_clean. unfold replaced_characters. rewrite !elem_of_cons. auto. }
  destruct (json_file_name_plain _ Hslash) as (H1 & H2 & H3 & H4).
  split; [intros c; apply sanitizeKey_clean|]. split; [|split].
  - unfold file_of_key. by apply path_join_plain.
  - intros value st Hfs Hw. unfold storage.set. rewrite Hfs, Hw. cbn.
    eexists. reflexivity.
  - by intros key' ->.
Qed.

(** ** Own properties *)

Section own_property_facts.
Context {A : Type}.
Implicit Types (o : list (str * A)) (k : str) (v : A).

Lemma has_own_keys k o : has_own k o = true ↔ k ∈ own_keys o.
Proof.
  unfold has_own, own_keys. induction o as [|[k' v'] o IH]; cbn.
  - split; [done | by intros ?%elem_of_nil].
  - rewrite orb_true_iff, str_eqb_eq, IH, elem_of_cons.
    split; (intros [?|?]; [by left | by right]).
Qed.

Lemma has_own_false k o : has_own k o = false ↔ k ∉ own_keys o.
Proof. rewrite <- has_own_keys. by destruct (has_own k o). Qed.

Lemma own_get_None k o : own_get k o = None ↔ k ∉ own_keys o.
Proof.
  unfold own_keys. induction o as [|[k' v'] o IH]; cbn.
  - split; [by intros _ ?%elem_of_nil | done].
  - rewrite not_elem_of_cons. destruct (str_eqb k' k) eqn:E.
    + apply str_eqb_eq in E as ->. split; [done | by intros [? _]].
    + rewrite IH. split; [|by intros [_ ?]].
      intros H. split; [|done]. intros ->. by rewrite str_eqb_refl in E.
Qed.

Lemma own_get_replace k k' v o :
  own_get k' (own_replace k v o)
  = if decide (k = k') then (λ _, v) <$> own_get k o else own_get k' o.
Proof.
  induction o as [|[k0 v0] o IH]; cbn; [by case_decide|].
  destruct (str_eqb k0 k) eqn:E.
  - apply str_eqb_eq in E as ->. cbn. case_decide as Hk.
    + subst. by rewrite str_eqb_refl.
    + by rewrite (str_eqb_ne _ _ Hk).
  - cbn. rewrite IH. case_decide as Hk.
    + subst. by rewrite E.
    + done.
Qed.

Lemma own_get_insert_index n k k' v o :
  k ∉ own_keys o →
  own_get k' (insert_index n k v o) = if decide (k = k') then Some v else own_get k' o.
Proof.
  unfold own_keys. induction o as [|[k0 v0] o IH]; intros Hk; cbn.
  - case_decide as E; [subst; by rewrite str_eqb_refl | by rewrite str_eqb_ne].
  - cbn in Hk. apply not_elem_of_cons in Hk as [Hne Hk].
    assert (Hhead : own_get k' ((k, v) :: (k0, v0) :: o)
                    = if decide (k = k') then Some v else own_get k' ((k0, v0) :: o)).
    { cbn. case_decide as E; [subst; by rewrite str_eqb_refl | by rewrite (str_eqb_ne _ _ E)]. }
    destruct (array_index k0) as [n'|]; [|exact Hhead].
    destruct (n' <? n)%N; [|exact Hhead].
    cbn. rewrite (IH Hk). case_decide as E; [|done].
    subst. by rewrite (str_eqb_ne k0 k').
Qed.

Lemma own_get_app_fresh k k' v o :
  k ∉ own_keys o →
  own_get k' (o ++ [(k, v)]) = if decide (k = k') then Some v else own_get k' o.
Proof.
  unfold own_keys. induction o as [|[k0 v0] o IH]; intros Hk; cbn.
  - case_decide as E; [subst; by rewrite str_eqb_refl | by rewrite str_eqb_ne].
  - cbn in Hk. apply not_elem_of_cons in Hk as [Hne Hk].
    rewrite (IH Hk). case_decide as E; [|done].
    subst. by rewrite (str_eqb_ne k0 k').
Qed.

(** Reading after writing: the classic two laws. *)
Lemma own_get_set k k' v o :
  own_get k' (own_set k v o) = if decide (k = k') then Some v else own_get k' o.
Proof.
  unfold own_set. destruct (has_own k o) eqn:E.
  - rewrite own_get_replace. case_decide; [|done]. subst.
    apply has_own_keys in E. destruct (own_get k' o) eqn:G; [done|].
    by apply own_get_None in G.
  - apply has_own_false in E.
    destruct (array_index k); [by apply own_get_insert_index | by apply own_get_app_fresh].
Qed.

Lemma own_get_delete k k' o :
  own_get k' (own_delete k o) = if decide (k = k') then None else own_get k' o.
Proof.
  unfold own_delete. induction o as [|[k0 v0] o IH]; [cbn; by case_decide|].
  rewrite filter_cons. cbn [fst]. destruct (decide (k0 ≠ k)) as [Hne|Heq].
  - cbn [own_get]. rewrite IH. case_decide as E; [|done]. subst. by rewrite str_eqb_ne.
  - apply dec_stable in Heq as ->. rewrite IH. cbn [own_get]. case_decide as E; [done|].
    by rewrite (str_eqb_ne _ _ E).
Qed.

Lemma own_keys_replace k v o : own_keys (own_replace k v o) = own_keys o.
Proof.
  unfold own_keys. induction o as [|[k0 v0] o IH]; cbn; [done|].
  destruct (str_eqb k0 k); cbn; [done | by rewrite IH].
Qed.

Lemma own_keys_insert_index n k v o : own_keys (insert_index n k v o) ≡ₚ k :: own_keys o.
Proof.
  unfold own_keys. induction o as [|[k0 v0] o IH]; cbn; [done|].
  destruct (array_index k0) as [n'|]; [|done].
  destruct (n' <? n)%N; [|done]. cbn. rewrite IH. apply Permutation_swap.
Qed.

Lemma own_keys_set k v o :
  own_keys (own_set k v o) ≡ₚ if has_own k o then own_keys o else k :: own_keys o.
Proof.
  unfold own_set. destruct (has_own k o).
  - by rewrite own_keys_replace.
  - destruct (array_index k); [apply own_keys_insert_index|].
    unfold own_keys. rewrite fmap_app. cbn. by rewrite Permutation_app_comm.
Qed.

Lemma own_keys_set_NoDup k v o : NoDup (own_keys o) → NoDup (own_keys (own_set k v o)).
Proof.
  intros H. rewrite own_keys_set. destruct (has_own k o) eqn:E; [done|].
  apply NoDup_cons. split; [by apply has_own_false | done].
Qed.

Lemma own_keys_delete k o : own_keys (own_delete k o) = filter (λ k', k' ≠ k) (own_keys o).
Proof.
  unfold own_keys, own_delete. induction o as [|[k0 v0] o IH]; [done|].
  rewrite fmap_cons, !filter_cons. cbn [fst].
  destruct (decide (k0 ≠ k)); rewrite ?fmap_cons, IH; done.
Qed.

Lemma own_keys_delete_NoDup k o : NoDup (own_keys o) → NoDup (own_keys (own_delete k o)).
Proof. intros H. rewrite own_keys_delete. by apply NoDup_filter. Qed.

End own_property_facts.

(** ** The store in memory *)

Lemma assign_NoDup k s o : NoDup (own_keys o) → NoDup (own_keys (assign k s o)).
Proof. unfold assign. destruct (str_eqb _ _); [done | apply own_keys_set_NoDup]. Qed.

Lemma perform_NoDup pf st op :
  NoDup (own_keys (memoryStore st)) → NoDup (own_keys (memoryStore (perform pf st op))).
Proof.
  intros H. destruct op as [key value|key]; unfold perform.
  - unfold storage.set.
    destruct (hasFileSystemAccess pf); [destruct (disk_writable pf)|];
      cbn [memoryStore]; by apply assign_NoDup.
  - unfold storage.del. cbn [memoryStore]. apply own_keys_delete_NoDup.
    destruct (hasFileSystemAccess pf); [|done].
    destruct (readFile _ _); [|done]. cbn [memoryStore].
    by apply own_keys_delete_NoDup.
Qed.

Lemma fold_perform_NoDup pf ops st :
  NoDup (own_keys (memoryStore st)) →
  NoDup (own_keys (memoryStore (fold_left (perform pf) ops st))).
Proof.
  revert st. induction ops as [|op ops IH]; intros st Hst; cbn [fold_left]; [done|].
  apply IH. by apply perform_NoDup.
Qed.

(** The own properties of [memoryStore] never repeat a name. *)
Lemma after_NoDup pf ops : NoDup (own_keys (memoryStore (after pf ops))).
Proof. apply fold_perform_NoDup. cbn. constructor. Qed.

Lemma filter_ext_elem {A} (P Q : A → Prop) `{!∀ x, Decision (P x), !∀ x, Decision (Q x)}
    (l : list A) :
  (∀ x, x ∈ l → P x ↔ Q x) → filter P l = filter Q l.
Proof.
  induction l as [|x l IH]; intros Hext; [done|].
  rewrite !filter_cons. rewrite IH by (intros y Hy; apply Hext; by right).
  destruct (decide (P x)) as [HP|HP], (decide (Q x)) as [HQ|HQ]; try done.
  - apply Hext in HP; [done | by left].
  - apply Hext in HQ; [done | by left].
Qed.

(** The loop over [memoryStore] appends, in enumeration order, the listed
    keys that are not in the result yet. *)
Lemma scan_memory_spec prefix (o : list (str * str)) (keys0 : list str) :
  NoDup (own_keys o) →
  storage.scan_memory prefix o keys0
  = keys0 ++ filter (λ key, listed prefix key ∧ key ∉ keys0) (own_keys o).
Proof.
  unfold storage.scan_memory, own_keys.
  revert keys0. induction o as [|[k v] o IH]; intros keys0 Hnd.
  - cbn. by rewrite app_nil_r.
  - rewrite fmap_cons in Hnd. apply NoDup_cons in Hnd as [Hk Hnd].
    rewrite fmap_cons. cbn [fold_left fst]. rewrite (IH _ Hnd), filter_cons.
    destruct (startsWith prefix k) eqn:E1; cbn [andb negb];
      [destruct (startsWith (lit "key_map:") k) eqn:E2; cbn [andb negb];
       [|destruct (bool_decide (k ∈ keys0)) eqn:E3; cbn [andb negb]]|].
    + rewrite decide_False by (unfold listed; intros [[_ ?] _]; congruence). done.
    + apply bool_decide_eq_true in E3.
      rewrite decide_False by (intros [_ ?]; done). done.
    + apply bool_decide_eq_false in E3.
      rewrite decide_True by (unfold listed; done).
      rewrite <- app_assoc. cbn [app]. do 2 f_equal.
      apply filter_ext_elem. intros key Hkey.
      rewrite not_elem_of_app, list_elem_of_singleton.
      split; [intros [? [? _]]; done|]. intros [? ?].
      split; [done|]. split; [done|]. intros ->. done.
    + rewrite decide_False by (unfold listed; intros [[? _] _]; congruence). done.
Qed.

Lemma keys_in_memory_eq dir prefix st :
  NoDup (own_keys (memoryStore st)) →
  storage.keys (in_memory dir) prefix st
  = filter (listed prefix) (own_keys (memoryStore st)).
Proof.
  intros Hnd. unfold storage.keys. cbn [in_memory hasFileSystemAccess].
  rewrite (scan_memory_spec _ _ _ Hnd). cbn [app].
  apply list_filter_iff. intros key. split; [by intros [? _]|].
  intros ?. split; [done | apply not_elem_of_nil].
Qed.

(** C10, as the code has it.  Without a file system, [storage.keys] lists,
    in the order of enumeration and without repeating any, exactly the
    names held in [memoryStore] that start with the prefix and do not start
    with [key_map:]; no name starting with [key_map:] is ever listed. *)
Theorem keys_in_memory (dir : path) (ops : list operation) (prefix : str) :
  let pf := in_memory dir in
  let st := after pf ops in
  storage.keys pf prefix st = filter (listed prefix) (own_keys (memoryStore st))
  ∧ NoDup (storage.keys pf prefix st)
  ∧ (∀ key, key ∈ storage.keys pf prefix st
            ↔ key ∈ own_keys (memoryStore st)
              ∧ startsWith prefix key = true
              ∧ startsWith (lit "key_map:") key = false)
  ∧ (∀ key, key ∈ storage.keys pf prefix st → startsWith (lit "key_map:") key = false).
Proof.
  intros pf st.
  pose proof (after_NoDup pf ops) as Hnd. fold st in Hnd.
  pose proof (keys_in_memory_eq dir prefix st Hnd) as Heq. fold pf in Heq.
  rewrite Heq. split; [done|]. split; [by apply NoDup_filter|]. split.
  - intros key. rewrite list_elem_of_filter. unfold listed. tauto.
  - intros key. rewrite list_elem_of_filter. unfold listed. tauto.
Qed.

(** C10 as stated fails: after [set] of a key that itself starts with
    [key_map:], the key is stored (it is an own property of [memoryStore]
    and [get] returns its value) and starts with the prefix asked for, yet
    [keys] does not list it. *)
Lemma keys_omits_a_stored_key :
  let pf := in_memory root in
  let st := after pf [SetKey (lit "key_map:a") (JObj [])] in
  lit "key_map:a" ∈ own_keys (memoryStore st)
  ∧ storage.get pf (lit "key_map:a") st = Normal (Data (JObj []))
  ∧ startsWith (lit "key_map:") (lit "key_map:a") = true
  ∧ storage.keys pf (lit "key_map:") st = [].
Proof.
  cbv zeta. split; [|split; [|split]].
  - vm_compute. constructor.
  - vm_compute. reflexivity.
  - vm_compute. reflexivity.
  - vm_compute. reflexivity.
Qed.

(** ** Reading back ([storage.get]) without a file system *)

Lemma JSON_stringify_object fields :
  ∃ rest, JSON_stringify (JObj fields) = ch "{" :: rest.
Proof. eexists. cbn [JSON_stringify]. reflexivity. Qed.

(** A record written under a key other than [__proto__] is read back, if it
    is JSON-serializable (printing then parsing gives it back). *)
Lemma get_after_set dir key fields st :
  key ≠ lit "__proto__" →
  JSON_parse (JSON_stringify (JObj fields)) = Some (JObj fields) →
  storage.get (in_memory dir) key (storage.set (in_memory dir) key (JObj fields) st)
  = Normal (Data (JObj fields)).
Proof.
  intros Hkey Hjson. unfold storage.get, storage.set, storage.from_memory.
  cbn [in_memory hasFileSystemAccess memoryStore]. unfold read, assign.
  rewrite (str_eqb_ne _ _ Hkey), own_get_set, decide_True by done.
  destruct (JSON_stringify_object fields) as [rest Hrest].
  rewrite Hjson, Hrest. cbn. by rewrite N.eqb_refl.
Qed.

(** A name that is neither in [memoryStore] nor inherited reads as [null]. *)
Lemma get_absent dir key st :
  key ∉ own_keys (memoryStore st) → key ∉ object_prototype_names →
  storage.get (in_memory dir) key st = Normal (Data JNull).
Proof.
  intros Hown Hproto. unfold storage.get, storage.from_memory, read.
  cbn [in_memory hasFileSystemAccess].
  apply own_get_None in Hown. rewrite Hown.
  by rewrite bool_decide_eq_false_2.
Qed.

Lemma get_after_del dir key st :
  key ∉ object_prototype_names →
  storage.get (in_memory dir) key (storage.del (in_memory dir) key st)
  = Normal (Data JNull).
Proof.
  intros Hproto. apply get_absent; [|done].
  unfold storage.del. cbn [in_memory hasFileSystemAccess memoryStore].
  apply own_get_None. rewrite own_get_delete. by rewrite decide_True.
Qed.

(** C4.  Where the code departs from the claim: [memoryStore] is an
    ordinary object, so a name inherited from [Object.prototype] is found
    by [memoryStore[key]] although it was never set, or was deleted; and
    assigning a string to [__proto__] stores nothing.  For these keys
    [get] returns a built-in object, neither [null] nor the value set. *)
Theorem get_of_inherited_name (dir : path) :
  let pf := in_memory dir in
  storage.get pf (lit "constructor") empty_store
  = Normal (Builtin (lit "constructor"))
  ∧ storage.get pf (lit "toString")
      (storage.del pf (lit "toString")
         (storage.set pf (lit "toString") (JObj []) empty_store))
    = Normal (Builtin (lit "toString"))
  ∧ storage.get pf (lit "__proto__")
      (storage.set pf (lit "__proto__") (JObj [(lit "a", JNum 1)]) empty_store)
    = Normal (Builtin (lit "__proto__")).
Proof. cbv zeta. split; [|split]; vm_compute; reflexivity. Qed.

(** ** Trimming and splitting *)













(** ** The table in the response *)



Lemma entry_of_row_is_Some row : is_Some (entry_of_row row) ↔ 3 ≤ length (columns row).
Proof.
  unfold entry_of_row. destruct (columns row) as [|c0 [|c1 [|c2 more]]]; cbn;
    split; try (intros [? [=]]); try lia; eauto.
Qed.














(** ** extractProductData *)






(** ** The rating the page function extracts *)

Lemma is_digit_cases (c : N) :
  is_digit c = true →
  (c = 48 ∨ c = 49 ∨ c = 50 ∨ c = 51 ∨ c = 52 ∨ c = 53 ∨ c = 54 ∨ c = 55
   ∨ c = 56 ∨ c = 57)%N.
Proof.
  unfold is_digit. rewrite andb_true_iff, !N.leb_le. lia.
Qed.

(** The match is one digit, or a digit, a point and a digit. *)
Lemma ratingMatch_shape (t m : str) :
  ratingMatch t = Some m →
  (∃ c, m = [c] ∧ is_digit c = true)
  ∨ (∃ c f, m = [c; ch "."; f] ∧ is_digit c = true ∧ is_digit f = true).
Proof.
  induction t as [|c t IH]; [done|]. cbn [ratingMatch].
  destruct (is_digit c) eqn:Ec; [|exact IH]. clear IH.
  destruct t as [|p [|f t']]; [intros [= <-]; left; eauto..|].
  destruct (p =? ch ".")%N eqn:Ep; cbn [andb]; [|intros [= <-]; left; eauto].
  destruct (is_digit f) eqn:Ef; intros [= <-]; [|left; eauto].
  apply N.eqb_eq in Ep as ->. right. eauto.
Qed.

Lemma parseFloat_match_range (m : str) :
  (∃ c, m = [c] ∧ is_digit c = true)
  ∨ (∃ c f, m = [c; ch "."; f] ∧ is_digit c = true ∧ is_digit f = true) →
  (0 <= parseFloat_match m)%Q ∧ (parseFloat_match m <= 99 # 10)%Q.
Proof.
  intros [(c & -> & Hc)|(c & f & -> & Hc & Hf)].
  - apply is_digit_cases in Hc.
    repeat (destruct Hc as [->|Hc]); try subst c; vm_compute; split; discriminate.
  - apply is_digit_cases in Hc. apply is_digit_cases in Hf.
    repeat (destruct Hc as [->|Hc]); try subst c;
      repeat (destruct Hf as [->|Hf]); try subst f;
      vm_compute; split; discriminate.
Qed.

Lemma scraped_rating_range (t : str) :
  (0 <= scraped_rating t)%Q ∧ (scraped_rating t <= 99 # 10)%Q.
Proof.
  unfold scraped_rating. destruct (ratingMatch t) as [m|] eqn:E.
  - apply parseFloat_match_range. by eapply ratingMatch_shape.
  - vm_compute. split; discriminate.
Qed.

(** ** The rating the results page shows *)

Lemma clean_rating_above (r : Q) : (5 < r)%Q → clean_rating (Some (JNum r)) = 5%Q.
Proof.
  intros H. cbn [clean_rating]. unfold Qmin, Qmax, GenericMinMax.gmin, GenericMinMax.gmax.
  assert (H0 : (0 < r)%Q) by (eapply Qlt_trans; [|exact H]; reflexivity).
  rewrite (proj1 (Qlt_alt 0 r) H0), (proj1 (Qlt_alt 5 r) H). reflexivity.
Qed.

Lemma clean_rating_below (r : Q) : (r < 0)%Q → clean_rating (Some (JNum r)) = 0%Q.
Proof.
  intros H. cbn [clean_rating]. unfold Qmin, Qmax, GenericMinMax.gmin, GenericMinMax.gmax.
  rewrite (proj1 (Qgt_alt 0 r) H). reflexivity.
Qed.

Lemma clean_rating_within (r : Q) :
  (0 <= r)%Q → (r <= 5)%Q → (clean_rating (Some (JNum r)) == r)%Q.
Proof.
  intros H0 H5. cbn [clean_rating].
  rewrite (Q.max_r 0 r H0). apply Q.min_r. exact H5.
Qed.

Lemma clean_rating_range (v : option json) :
  (0 <= clean_rating v)%Q ∧ (clean_rating v <= 5)%Q.
Proof.
  destruct v as [[| | r | | |]|]; try (vm_compute; split; discriminate).
  cbn [clean_rating]. split.
  - apply Q.min_glb; [discriminate | apply Q.le_max_l].
  - apply Q.le_min_l.
Qed.

Lemma clean_rating_not_number (v : option json) :
  is_number v = false → clean_rating v = 0%Q.
Proof. by destruct v as [[| | r | | |]|]. Qed.

Lemma cleaned_object_rating product nm pr :
  ∃ fields, cleaned_object product nm pr = JObj fields
            ∧ own_get (lit "rating") fields
              = Some (JNum (clean_rating (field "rating" product))).
Proof.
  eexists. split; [reflexivity|].
  rewrite !own_get_set.
  rewrite decide_False by discriminate. rewrite decide_False by discriminate.
  by rewrite decide_True.
Qed.

Lemma cleanProductData_rating clean product out :
  cleanProductData clean product = Normal (Some out) →
  ∃ fields, out = JObj fields
            ∧ own_get (lit "rating") fields
              = Some (JNum (clean_rating (field "rating" product))).
Proof.
  unfold cleanProductData.
  destruct (negb (truthy (Some product))); [done|].
  destruct (string_receiver _) as [nm|e]; [|done].
  destruct (_ || _).
  - destruct (_ && _); [|done]. intros [= <-]. apply cleaned_object_rating.
  - destruct (if truthy _ then _ else _) as [price1|e]; [|done].
    intros [= <-]. apply cleaned_object_rating.
Qed.

(** C3, as the code has it.  The page function of [scrapeWebsite] does not
    clamp: the rating it stores is the first digit of the rating text, with
    one decimal if a point and a digit follow, hence between 0 and 9.9
    ([7.2] stays 7.2, and [-1] gives 1), and exactly 0 when the text has no
    digit.  The clamping to the interval from 0 to 5 is done by
    [cleanProductData] when the results are shown: a number above 5 gives
    5, a number below 0 gives 0, a number in between is kept, anything
    that is not a number gives 0; the rating of a cleaned product is that
    value. *)
Theorem rating_is_clamped_on_display :
  (∀ t, (0 <= scraped_rating t)%Q ∧ (scraped_rating t <= 99 # 10)%Q)
  ∧ (∀ t, ratingMatch t = None → scraped_rating t = 0%Q)
  ∧ scraped_rating (lit "7.2") = (36 # 5)%Q
  ∧ scraped_rating (lit "-1") = 1%Q
  ∧ (∀ v, (0 <= clean_rating v)%Q ∧ (clean_rating v <= 5)%Q)
  ∧ (∀ r, (5 < r)%Q → clean_rating (Some (JNum r)) = 5%Q)
  ∧ (∀ r, (r < 0)%Q → clean_rating (Some (JNum r)) = 0%Q)
  ∧ (∀ r, (0 <= r)%Q → (r <= 5)%Q → (clean_rating (Some (JNum r)) == r)%Q)
  ∧ (∀ v, is_number v = false → clean_rating v = 0%Q)
  ∧ (∀ clean product out,
       cleanProductData clean product = Normal (Some out) →
       ∃ fields, out = JObj fields
                 ∧ own_get (lit "rating") fields
                   = Some (JNum (clean_rating (field "rating" product)))).
Proof.
  split; [exact scraped_rating_range|].
  split; [by intros t; unfold scraped_rating; intros ->|].
  split; [reflexivity|]. split; [reflexivity|].
  split; [exact clean_rating_range|].
  split; [exact clean_rating_above|].
  split; [exact clean_rating_below|].
  split; [exact clean_rating_within|].
  split; [exact clean_rating_not_number|].
  exact cleanProductData_rating.
Qed.

(** C3 as stated fails: for the rating text [7.2] the scraped item carries
    the rating 7.2, which is above 5, and for [-1] it carries 1. *)
Lemma scraped_rating_is_not_clamped :
  scraped_rating (lit "7.2") = (36 # 5)%Q
  ∧ (5 < scraped_rating (lit "7.2"))%Q
  ∧ scraped_rating (lit "-1") = 1%Q.
Proof. split; [reflexivity|]. split; [reflexivity|reflexivity]. Qed.

(** ** Searching in strings *)

Lemma indexOf_None (p s : str) : indexOf p s = None ↔ includes p s = false.
Proof.
  induction s as [|c s IH]; cbn.
  - destruct (startsWith p []); cbn; split; done.
  - destruct (startsWith p (c :: s)); cbn; [split; done|].
    rewrite <- IH. destruct (indexOf p s); cbn; split; done.
Qed.



(** ** compareWebsites *)






(** ** Computations that do not save, computations that do not throw *)

Section quiet_total.
Context {A B : Type}.

Lemma quiet_ret (a : A) : quiet (mret a).
Proof. done. Qed.

Lemma quiet_throw (e : thrown) : quiet (@throw A e).
Proof. done. Qed.

Lemma quiet_eval (c : completion A) : quiet (eval c).
Proof. done. Qed.

Lemma quiet_bind (m : io A) (f : A → io B) :
  quiet m → (∀ a, quiet (f a)) → quiet (m ≫= f).
Proof.
  intros Hm Hf w. unfold mbind, io_bind. specialize (Hm w).
  destruct (m w) as [[a|e] w1]; cbn in *; [|done]. by rewrite Hf.
Qed.

Lemma quiet_try_catch (body : io A) (handler : thrown → io A) :
  quiet body → (∀ e, quiet (handler e)) → quiet (try_catch body handler).
Proof.
  intros Hm Hh w. unfold try_catch. specialize (Hm w).
  destruct (body w) as [[a|e] w1]; cbn in *; [done|]. by rewrite Hh.
Qed.

Lemma total_try_catch (body : io A) (handler : thrown → io A) :
  (∀ e, total (handler e)) → total (try_catch body handler).
Proof.
  intros Hh w. unfold try_catch. destruct (body w) as [[a|e] w1]; cbn; [eauto|].
  apply Hh.
Qed.

Lemma total_ret (a : A) : total (mret a).
Proof. intros w. by exists a. Qed.

End quiet_total.

Lemma quiet_sleep ms : quiet (sleep ms).
Proof. done. Qed.

Lemma quiet_call_fetch h : quiet (call_fetch h).
Proof. intros w. unfold call_fetch. by destruct (fetch h (fetches w)). Qed.

Lemma quiet_call_model h : quiet (call_model h).
Proof. done. Qed.

Lemma quiet_Date_now h : quiet (Date_now h).
Proof. done. Qed.

Lemma quiet_fetchWithRetry h retries backoff : quiet (fetchWithRetry h retries backoff).
Proof.
  revert backoff. induction retries as [|r IH]; intros backoff w;
    destruct (fetch h (fetches w)) as [resp|e] eqn:E.
  - by rewrite (fetchWithRetry_resolved _ _ _ _ _ E).
  - by rewrite (fetchWithRetry_rejected_last _ _ _ _ E).
  - by rewrite (fetchWithRetry_resolved _ _ _ _ _ E).
  - rewrite (fetchWithRetry_rejected_retry _ _ _ _ _ E). by rewrite IH.
Qed.

Lemma quiet_fetchWithRetry_default h : quiet (fetchWithRetry_default h).
Proof. apply quiet_fetchWithRetry. Qed.

Create HintDb quiet.

#[local] Hint Resolve quiet_ret quiet_throw quiet_eval quiet_sleep quiet_call_fetch
  quiet_call_model quiet_Date_now quiet_fetchWithRetry quiet_fetchWithRetry_default
  : quiet.

(** One step through the structure of a computation. *)
Ltac quiet_step :=
  first [ solve [auto with quiet]
        | match goal with
          | |- quiet (_ ≫= _) => apply quiet_bind; [|intros ?]
          | |- quiet (try_catch _ _) => apply quiet_try_catch; [|intros ?]
          | |- quiet (if ?b then _ else _) => destruct b
          | |- quiet (match ?x with _ => _ end) => destruct x
          end ].

Lemma quiet_fetch_dataset h : quiet (fetch_dataset h).
Proof. unfold fetch_dataset. repeat quiet_step. Qed.

Lemma quiet_poll h remaining : quiet (poll h remaining).
Proof.
  induction remaining as [|n IH]; cbn [poll]; [apply quiet_ret|].
  repeat first [ exact IH | apply quiet_fetch_dataset | quiet_step ].
Qed.

Lemma quiet_scrapeWebsite h site category : quiet (scrapeWebsite h site category).
Proof.
  unfold scrapeWebsite.
  repeat first [ apply quiet_poll | quiet_step ].
Qed.

Lemma quiet_extractProductData h rawData : quiet (extractProductData h rawData).
Proof. unfold extractProductData. repeat quiet_step. Qed.

Lemma quiet_analyzeProductData h products : quiet (analyzeProductData h products).
Proof. unfold analyzeProductData. repeat quiet_step. Qed.

Lemma total_scrapeWebsite h site category : total (scrapeWebsite h site category).
Proof. apply total_try_catch. intros e. apply total_ret. Qed.

Lemma total_analyzeProductData h products : total (analyzeProductData h products).
Proof. apply total_try_catch. intros e. apply total_ret. Qed.

(** A computation that does not throw and does not save, run from [w]. *)
Lemma run_total_quiet {A} (m : io A) w :
  total m → quiet m → ∃ a w', m w = (Normal a, w') ∧ saved w' = saved w.
Proof.
  intros Ht Hq. destruct (Ht w) as [a Ha]. specialize (Hq w).
  destruct (m w) as [c w']; cbn in *. subst c. eauto.
Qed.

(** ** analyzeProducts and runProductComparison *)

(** The inner [try] of [analyzeProducts]: the structured products, or the
    raw data. *)
Lemma inner_try_total_quiet h (rawData : list json) :
  let inner :=
    try_catch
      (extractProductData h rawData ≫= λ structuredProducts,
         if is_empty structuredProducts && negb (is_empty rawData)
         then mret rawData else mret structuredProducts)
      (λ _, mret rawData) in
  total inner ∧ quiet inner.
Proof.
  cbv zeta. split.
  - apply total_try_catch. intros e. apply total_ret.
  - apply quiet_try_catch; [|intros e; apply quiet_ret].
    apply quiet_bind; [apply quiet_extractProductData|].
    intros a. destruct (_ && _); apply quiet_ret.
Qed.

(** [analyzeProducts] saves exactly one record, under the key of the job,
    and its status is [completed]: the handler that would save a failed
    record is never entered, because nothing in the [try] can throw. *)
Lemma analyzeProducts_saves h (job site : str) (category : option str) w :
  ∃ r w',
    analyzeProducts h job site category w = (Normal (), w')
    ∧ saved w' = saved w ++ [(result_key job, r)]
    ∧ status r = completed ∧ id r = job ∧ website r = site
    ∧ is_Some (analysis r) ∧ error r = None.
Proof.
  unfold analyzeProducts.
  destruct (run_total_quiet _ w (total_scrapeWebsite h site category)
              (quiet_scrapeWebsite h site category)) as (rawData & w1 & E1 & S1).
  destruct (inner_try_total_quiet h rawData) as [Ht Hq].
  destruct (run_total_quiet _ w1 Ht Hq) as (extracted & w2 & E2 & S2).
  set (now := fold_left N.add (timers w2) (clock h)).
  destruct (run_total_quiet _ w2
              (total_analyzeProductData h (imap (with_ids now) extracted))
              (quiet_analyzeProductData h (imap (with_ids now) extracted)))
    as (a & w3 & E3 & S3).
  eexists _, (add_saved _ _ w3). split.
  - unfold try_catch at 1.
    rewrite (bind_normal _ _ _ _ _ E1), (bind_normal _ _ _ _ _ E2).
    rewrite (bind_normal (Date_now h) _ w2 now w2) by reflexivity.
    rewrite (bind_normal _ _ _ _ _ E3).
    rewrite (bind_normal (Date_now h) _ w3 _ w3) by reflexivity.
    reflexivity.
  - cbn. rewrite S3, S2, S1. repeat split; eauto.
Qed.

(** What [runProductComparison] does for a website that is given: it
    saves the placeholder, then the background job saves its record, and
    the identifier is returned. *)
Lemma runProductComparison_saves h (site : str) (category : option str) w :
  site ≠ [] →
  ∃ placeholder r w',
    runProductComparison h (Some site) category w = (Normal (uuidv4 h), w')
    ∧ saved w' = saved w ++ [(result_key (uuidv4 h), placeholder);
                             (result_key (uuidv4 h), r)]
    ∧ status placeholder = running ∧ products placeholder = []
    ∧ analysis placeholder = None ∧ error placeholder = None
    ∧ status r = completed ∧ is_Some (analysis r).
Proof.
  intros Hsite. destruct site as [|c site]; [done|].
  unfold runProductComparison. cbn [env_value].
  set (placeholder :=
         {| id := uuidv4 h; date := fold_left N.add (timers w) (clock h);
            website := c :: site; category := category; status := running;
            products := []; analysis := None; error := None |}).
  destruct (analyzeProducts_saves h (uuidv4 h) (c :: site) category
              (add_saved (result_key (uuidv4 h)) placeholder w))
    as (r & w' & E & S & Hst & _ & _ & Han & _).
  exists placeholder, r, w'. split.
  - unfold try_catch at 1.
    rewrite (bind_normal (Date_now h) _ w _ w) by reflexivity.
    rewrite (bind_normal (storage_set _ _) _ w () (add_saved (result_key (uuidv4 h)) placeholder w))
      by reflexivity.
    rewrite (bind_normal (detached _) _ _ () w').
    + reflexivity.
    + unfold detached. by rewrite E.
  - rewrite S. cbn. rewrite <- app_assoc. done.
Qed.

(** Without a website nothing is saved and the call throws. *)
Lemma runProductComparison_without_website h website category w :
  env_value website = None →
  runProductComparison h website category w
  = (Abrupt (ErrorObject (lit "Failed to run product comparison: Website is required")), w).
Proof. intros E. unfold runProductComparison. rewrite E. reflexivity. Qed.

Lemma invariant_of_placeholder r :
  status r = running → products r = [] → analysis r = None → record_invariant r.
Proof.
  intros Hs Hp Ha. unfold record_invariant. rewrite Hs. repeat split; done.
Qed.

Lemma invariant_of_completed r :
  status r = completed → is_Some (analysis r) → record_invariant r.
Proof.
  intros Hs [a Ha]. unfold record_invariant. rewrite Hs, Ha.
  repeat split; done.
Qed.

(** C7.  Every record [runProductComparison] and [analyzeProducts] give to
    [storage.set] satisfies the invariant: a running record has no
    products and no analysis, a completed record has an analysis, a failed
    record has an error text that is not empty.  [runProductComparison]
    saves the running placeholder first, under the key of the identifier
    it returns. *)
Theorem saved_records_satisfy_invariant
    (h : host) (website category : option str) (job site : str) (w : world) :
  (∃ new, saved (runProductComparison h website category w).2 = saved w ++ new
          ∧ Forall (λ kr, record_invariant kr.2) new
          ∧ ∀ a, (runProductComparison h website category w).1 = Normal a →
                 ∃ placeholder rest,
                   new = (result_key a, placeholder) :: rest
                   ∧ status placeholder = running ∧ products placeholder = []
                   ∧ analysis placeholder = None)
  ∧ (∃ new, saved (analyzeProducts h job site category w).2 = saved w ++ new
            ∧ Forall (λ kr, record_invariant kr.2) new).
Proof.
  split.
  - destruct (env_value website) as [s|] eqn:E.
    + assert (website = Some s ∧ s ≠ []) as [-> Hs].
      { destruct website as [[|c t]|]; cbn in E; try done. by injection E as <-. }
      destruct (runProductComparison_saves h s category w Hs)
        as (p & r & w' & E' & S & Hp1 & Hp2 & Hp3 & _ & Hr1 & Hr2).
      rewrite E'. cbn [fst snd]. rewrite S.
      eexists. split; [reflexivity|]. split.
      * apply Forall_cons. split; [by apply invariant_of_placeholder|].
        apply Forall_cons. split; [by apply invariant_of_completed|]. constructor.
      * intros a [= <-]. eauto 10.
    + rewrite (runProductComparison_without_website _ _ _ _ E).
      exists []. cbn. rewrite app_nil_r. split; [done|]. split; [constructor|done].
  - destruct (analyzeProducts_saves h job site category w)
      as (r & w' & E & S & Hst & _ & _ & Han & _).
    rewrite E. cbn [fst snd]. rewrite S.
    eexists. split; [reflexivity|].
    apply Forall_cons. split; [by apply invariant_of_completed | constructor].
Qed.

(** C2.  Where the code departs from the claim.  For a remote run that
    stays RUNNING through all 30 attempts the polling loop ends without a
    result and [scrapeWebsite] throws the error of the claim, but inside
    its own [try]: its handler returns the empty list.  The job goes on
    with no products, and the record it saves has the status [completed],
    not [failed], and no error text. *)
Theorem poll_timeout_is_saved_as_completed :
  let w := (runProductComparison always_running (Some (lit "example.com")) None new_world).2 in
  (∃ w1 w2, poll always_running maxAttempts w1 = (Normal (Finished None), w2)
            ∧ fetches w1 = 1 ∧ fetches w2 = 31)
  ∧ (scrapeWebsite always_running (lit "example.com") None new_world).1 = Normal []
  ∧ fetches w = 31
  ∧ (λ kr, (kr.1, status kr.2, products kr.2, error kr.2)) <$> saved w
    = [(lit "product-comparison:job-1", running, [], None);
       (lit "product-comparison:job-1", completed, [], None)].
Proof.
  cbv zeta. split; [|split; [|split]].
  - exists (count_fetch new_world). eexists. split; [vm_compute; reflexivity|].
    split; reflexivity.
  - vm_compute. reflexivity.
  - vm_compute. reflexivity.
  - vm_compute. reflexivity.
Qed.

(** ** Laws of the store *)


Lemma find_filter_other (p q : path) (d : list (path * str)) :
  q ≠ p →
  find (λ e, bool_decide (e.1 = q)) (filter (λ e, e.1 ≠ p) d)
  = find (λ e, bool_decide (e.1 = q)) d.
Proof.
  intros Hne. induction d as [|[p0 s0] d IH]; [done|].
  rewrite filter_cons. cbn [fst]. destruct (decide (p0 ≠ p)) as [H|H].
  - cbn. by rewrite IH.
  - apply dec_stable in H as ->. rewrite IH. cbn.
    by rewrite bool_decide_eq_false_2.
Qed.


Lemma readFile_unlink p d : readFile p (unlink p d) = None.
Proof.
  unfold readFile, unlink. induction d as [|[p0 s0] d IH]; [done|].
  rewrite filter_cons. cbn [fst]. destruct (decide (p0 ≠ p)) as [H|H]; [|done].
  cbn. by rewrite bool_decide_eq_false_2.
Qed.

Lemma readFile_unlink_other p q d : q ≠ p → readFile q (unlink p d) = readFile q d.
Proof. intros Hne. unfold readFile, unlink. by rewrite find_filter_other. Qed.

Lemma key_map_inj k k' : key_map k = key_map k' → k = k'.
Proof. unfold key_map. by intros ?%(inj (app _)). Qed.


Lemma assign_key_map k s o : assign (key_map k) s o = own_set (key_map k) s o.
Proof. unfold assign. by rewrite str_eqb_ne. Qed.


Lemma read_assign_other key other s o :
  other ≠ key → read other (assign key s o) = read other o.
Proof.
  intros Hne. unfold read, assign. destruct (str_eqb key _); [done|].
  by rewrite own_get_set, decide_False.
Qed.

Lemma read_delete_other key other o :
  other ≠ key → read other (own_delete key o) = read other o.
Proof. intros Hne. unfold read. by rewrite own_get_delete, decide_False. Qed.

Lemma get_memory_text dir key text st :
  key ≠ lit "__proto__" →
  storage.get (in_memory dir) key
    {| memoryStore := assign key text (memoryStore st); disk := disk st |}
  = if str_eqb text [] then Normal (Data JNull)
    else if startsWith (lit "{") text then
      match JSON_parse text with
      | Some v => Normal (Data v)
      | None => Abrupt (ErrorObject (lit "Unexpected token in JSON"))
      end
    else Normal (Data (JStr text)).
Proof.
  intros Hkey. unfold storage.get, storage.from_memory, read, assign.
  cbn [in_memory hasFileSystemAccess memoryStore].
  by rewrite (str_eqb_ne _ _ Hkey), own_get_set, decide_True.
Qed.

(** X1.  Without a file system, and for every key that is not a name of
    [Object.prototype]: a serializable record is read back as it was
    written; after [del] the key reads as [null]; and so does a key that
    [memoryStore] does not hold. *)
Theorem memory_store_round_trip
    (dir : path) (key : str) (fields : list (str * json)) (st : store) :
  let pf := in_memory dir in
  key ∉ object_prototype_names →
  serializable (JObj fields) →
  storage.get pf key (storage.set pf key (JObj fields) st) = Normal (Data (JObj fields))
  ∧ storage.get pf key (storage.del pf key (storage.set pf key (JObj fields) st))
    = Normal (Data JNull)
  ∧ (key ∉ own_keys (memoryStore st) → storage.get pf key st = Normal (Data JNull)).
Proof.
  intros pf Hproto Hjson.
  assert (key ≠ lit "__proto__") as Hkey.
  { intros ->. apply Hproto. apply (bool_decide_unpack _). vm_compute. exact I. }
  split; [|split].
  - by apply get_after_set.
  - by apply get_after_del.
  - intros Hown. by apply get_absent.
Qed.

Lemma memory_store_round_trip_witness :
  let pf := in_memory root in
  let record := JObj [(lit "status", JStr (lit "completed")); (lit "products", JArr [])] in
  storage.get pf (lit "product-comparison:job-1")
    (storage.set pf (lit "product-comparison:job-1") record empty_store)
  = Normal (Data record).
Proof.
  cbv zeta.
  refine (proj1 (memory_store_round_trip root (lit "product-comparison:job-1") _ empty_store _ _)).
  - apply (bool_decide_unpack _). vm_compute. exact I.
  - vm_compute. reflexivity.
Defined.

(** X2.  Without a file system, writing or deleting one key changes what
    no other key reads. *)
Theorem memory_store_keys_are_independent
    (dir : path) (key other : str) (value : json) (st : store) :
  let pf := in_memory dir in
  other ≠ key →
  storage.get pf other (storage.set pf key value st) = storage.get pf other st
  ∧ storage.get pf other (storage.del pf key st) = storage.get pf other st.
Proof.
  intros pf Hne. subst pf. unfold storage.get, storage.set, storage.del, storage.from_memory.
  cbn [in_memory hasFileSystemAccess memoryStore].
  by rewrite read_assign_other, read_delete_other.
Qed.

Lemma memory_store_keys_are_independent_witness :
  let pf := in_memory root in
  let st := storage.set pf (lit "analysis:a") (JObj [(lit "id", JStr (lit "a"))]) empty_store in
  storage.get pf (lit "analysis:a") (storage.set pf (lit "analysis:b") (JObj []) st)
  = storage.get pf (lit "analysis:a") st.
Proof.
  cbv zeta.
  refine (proj1 (memory_store_keys_are_independent root (lit "analysis:b") (lit "analysis:a")
                   (JObj []) _ _)).
  vm_compute. discriminate.
Defined.

(** X3.  Without a file system only records keep their type.  An array,
    [null] or a boolean is read back as its JSON text, a string; a string
    is read back unchanged unless it is empty, which reads as [null], or
    starts with an opening brace, which is parsed, and [get] throws if it
    is not JSON. *)
Theorem memory_store_returns_text (dir : path) (key : str) (st : store) :
  let pf := in_memory dir in
  key ≠ lit "__proto__" →
  (∀ items, storage.get pf key (storage.set pf key (JArr items) st)
            = Normal (Data (JStr (JSON_stringify (JArr items)))))
  ∧ storage.get pf key (storage.set pf key JNull st) = Normal (Data (JStr (lit "null")))
  ∧ (∀ b, storage.get pf key (storage.set pf key (JBool b) st)
          = Normal (Data (JStr (if b then lit "true" else lit "false"))))
  ∧ (∀ s, s ≠ [] → startsWith (lit "{") s = false →
          storage.get pf key (storage.set pf key (JStr s) st) = Normal (Data (JStr s)))
  ∧ storage.get pf key (storage.set pf key (JStr []) st) = Normal (Data JNull)
  ∧ (∀ s, startsWith (lit "{") s = true → JSON_parse s = None →
          ∃ e, storage.get pf key (storage.set pf key (JStr s) st) = Abrupt e).
Proof.
  intros pf Hkey. subst pf. unfold storage.set. cbn [in_memory hasFileSystemAccess].
  split; [|split; [|split; [|split; [|split]]]].
  - intros items. by rewrite get_memory_text.
  - by rewrite get_memory_text.
  - intros b. rewrite get_memory_text by done. by destruct b.
  - intros s Hs Hbrace. rewrite get_memory_text by done.
    by rewrite (str_eqb_ne _ _ Hs), Hbrace.
  - by rewrite get_memory_text.
  - intros s Hbrace Hparse. rewrite get_memory_text by done.
    rewrite Hbrace, Hparse. destruct (str_eqb s []) eqn:E; [|eauto].
    apply str_eqb_eq in E as ->. discriminate.
Qed.

Lemma memory_store_returns_text_witness :
  let pf := in_memory root in
  storage.get pf (lit "ids") (storage.set pf (lit "ids") (JArr [JNum 1; JNum 2]) empty_store)
  = Normal (Data (JStr (lit "[1,2]"))).
Proof.
  cbv zeta.
  refine (proj1 (memory_store_returns_text root (lit "ids") empty_store _) _).
  vm_compute. discriminate.
Defined.




(** ** Keys that share a file *)







(** ** A writable file system, after any series of calls *)

(** What [set] records in [memoryStore]: under [key_map:] and a key, the
    safe name of that key. *)
Lemma key_map_consistent_step dir st op :
  (∀ k s, own_get (key_map k) (memoryStore st) = Some s → s = sanitizeKey k) →
  ∀ k s, own_get (key_map k) (memoryStore (perform (on_disk dir) st op)) = Some s →
         s = sanitizeKey k.
Proof.
  intros Hst k s. destruct op as [key value|key].
  - unfold perform, storage.set.
    cbn [on_disk hasFileSystemAccess disk_writable memoryStore].
    rewrite assign_key_map, own_get_set. case_decide as E.
    + apply key_map_inj in E as ->. congruence.
    + apply Hst.
  - unfold perform, storage.del. cbn [on_disk hasFileSystemAccess].
    destruct (readFile _ _); cbn [memoryStore]; rewrite !own_get_delete;
      repeat case_decide; try done; apply Hst.
Qed.

Lemma key_map_consistent dir ops k s :
  own_get (key_map k) (memoryStore (after (on_disk dir) ops)) = Some s → s = sanitizeKey k.
Proof.
  unfold after.
  assert (∀ k s, own_get (key_map k) (memoryStore empty_store) = Some s
                 → s = sanitizeKey k) as H0 by done.
  revert k s. generalize dependent empty_store.
  induction ops as [|op ops IH]; intros st Hst; [done|].
  cbn [fold_left]. apply IH. by apply key_map_consistent_step.
Qed.

Lemma safe_key_after dir ops key :
  storage.safe_key key (after (on_disk dir) ops) = sanitizeKey key.
Proof.
  unfold storage.safe_key.
  destruct (own_get _ _) as [s|] eqn:E; [|done].
  apply key_map_consistent in E as ->. by destruct (str_eqb _ _).
Qed.

Lemma after_snoc pf ops op : after pf (ops ++ [op]) = perform pf (after pf ops) op.
Proof. unfold after. by rewrite fold_left_app. Qed.

Lemma del_on_disk dir key st :
  readFile (path_join (STORAGE_DIR (on_disk dir)) (storage.safe_key key st ++ lit ".json"))
    (disk (storage.del (on_disk dir) key st)) = None
  ∧ own_get key (memoryStore (storage.del (on_disk dir) key st)) = None.
Proof.
  unfold storage.del. cbn [on_disk hasFileSystemAccess memoryStore disk].
  rewrite own_get_delete, decide_True by done. split; [|done].
  destruct (readFile _ (disk st)) eqn:E; cbn [disk]; [apply readFile_unlink | exact E].
Qed.

(** X6.  On a writable file system, in every state that calls of [set]
    and [del] lead to, a key that is not a name of [Object.prototype]
    reads as [null] once it is deleted. *)
Theorem file_store_delete (dir : path) (ops : list operation) (key : str) :
  let pf := on_disk dir in
  key ∉ object_prototype_names →
  storage.get pf key (storage.del pf key (after pf ops)) = Normal (Data JNull).
Proof.
  intros pf Hproto. subst pf.
  destruct (del_on_disk dir key (after (on_disk dir) ops)) as [Hfile Hown].
  rewrite safe_key_after in Hfile.
  unfold storage.get. cbn [on_disk hasFileSystemAccess].
  change (storage.del (on_disk dir) key (after (on_disk dir) ops))
    with (perform (on_disk dir) (after (on_disk dir) ops) (DelKey key)) in *.
  rewrite <- after_snoc in *. rewrite safe_key_after, Hfile.
  cbn [mbind option_bind]. unfold storage.from_memory, read.
  rewrite Hown. by rewrite bool_decide_eq_false_2.
Qed.

Lemma file_store_delete_witness :
  let pf := on_disk root in
  storage.get pf (lit "analysis:a")
    (storage.del pf (lit "analysis:a")
       (after pf [SetKey (lit "analysis:a") (JObj []); SetKey (lit "analysis:b") (JObj [])]))
  = Normal (Data JNull).
Proof.
  cbv zeta. apply file_store_delete.
  apply (bool_decide_unpack _). vm_compute. exact I.
Defined.

(** ** The route that serves a result *)



(** ** Listing the keys of a writable file system *)





















(** ** What a job costs *)

Lemma waited_app (a b : list N) : waited (a ++ b) = (waited a + waited b)%N.
Proof. unfold waited. induction a as [|x a IH]; cbn; [done|]. rewrite IH. lia. Qed.

Section within_facts.
Context {A B : Type}.

Lemma within_weaken f g t f' g' t' (m : io A) :
  within f g t m → f ≤ f' → g ≤ g' → (t <= t')%N → within f' g' t' m.
Proof.
  intros H Hf Hg Ht w. destruct (H w) as (H1 & H2 & delays & H3 & H4).
  split; [lia|]. split; [lia|]. exists delays. split; [done|lia].
Qed.

Lemma within_still (m : io A) : (∀ w, (m w).2 = w) → within 0 0 0 m.
Proof.
  intros H w. rewrite H. split; [lia|]. split; [lia|].
  exists []. by rewrite app_nil_r.
Qed.

Lemma within_ret (a : A) : within 0 0 0 (mret a : io A).
Proof. by apply within_still. Qed.

Lemma within_throw e : within 0 0 0 (@throw A e).
Proof. by apply within_still. Qed.

Lemma within_eval (c : completion A) : within 0 0 0 (eval c).
Proof. by apply within_still. Qed.

Lemma within_bind f1 g1 t1 f2 g2 t2 (m : io A) (k : A → io B) :
  within f1 g1 t1 m → (∀ a, within f2 g2 t2 (k a)) →
  within (f1 + f2) (g1 + g2) (t1 + t2) (m ≫= k).
Proof.
  intros Hm Hk w. specialize (Hm w). unfold mbind, io_bind.
  destruct (m w) as [[a|e] w1]; cbn [snd] in *.
  - destruct Hm as (H1 & H2 & d1 & H3 & H4).
    destruct (Hk a w1) as (K1 & K2 & d2 & K3 & K4).
    split; [lia|]. split; [lia|]. exists (d1 ++ d2).
    rewrite K3, H3, waited_app, app_assoc. split; [done|lia].
  - destruct Hm as (H1 & H2 & d1 & H3 & H4).
    split; [lia|]. split; [lia|]. exists d1. split; [done|lia].
Qed.

Lemma within_try_catch f1 g1 t1 f2 g2 t2 (body : io A) (handler : thrown → io A) :
  within f1 g1 t1 body → (∀ e, within f2 g2 t2 (handler e)) →
  within (f1 + f2) (g1 + g2) (t1 + t2) (try_catch body handler).
Proof.
  intros Hm Hk w. specialize (Hm w). unfold try_catch.
  destruct (body w) as [[a|e] w1]; cbn [snd] in *.
  - destruct Hm as (H1 & H2 & d1 & H3 & H4).
    split; [lia|]. split; [lia|]. exists d1. split; [done|lia].
  - destruct Hm as (H1 & H2 & d1 & H3 & H4).
    destruct (Hk e w1) as (K1 & K2 & d2 & K3 & K4).
    split; [lia|]. split; [lia|]. exists (d1 ++ d2).
    rewrite K3, H3, waited_app, app_assoc. split; [done|lia].
Qed.

Lemma within_detached f g t (m : io A) : within f g t m → within f g t (detached m).
Proof. intros H w. apply (H w). Qed.

End within_facts.

Lemma within_sleep ms : within 0 0 ms (sleep ms).
Proof.
  intros w. cbn. split; [lia|]. split; [lia|]. exists [ms]. split; [done|]. cbn. lia.
Qed.

Lemma within_call_fetch h : within 1 0 0 (call_fetch h).
Proof.
  intros w. unfold call_fetch. destruct (fetch h (fetches w)); cbn;
    (split; [lia|]; split; [lia|]; exists []; by rewrite app_nil_r).
Qed.

Lemma within_call_model h : within 0 1 0 (call_model h).
Proof.
  intros w. cbn. split; [lia|]. split; [lia|]. exists []. by rewrite app_nil_r.
Qed.

Lemma within_Date_now h : within 0 0 0 (Date_now h).
Proof. by apply within_still. Qed.

Lemma within_storage_set key r : within 0 0 0 (storage_set key r).
Proof.
  intros w. cbn. split; [lia|]. split; [lia|]. exists []. by rewrite app_nil_r.
Qed.

Lemma within_fetchWithRetry h retries backoff :
  within (S retries) 0 (waited (backoff_delays backoff retries))
    (fetchWithRetry h retries backoff).
Proof.
  revert backoff. induction retries as [|r IH]; intros backoff.
  - cbn [fetchWithRetry]. apply (within_try_catch 1 0 0 0 0 0); [apply within_call_fetch|].
    intros e. apply within_throw.
  - cbn [fetchWithRetry]. rewrite backoff_delays_S.
    eapply within_weaken.
    + apply (within_try_catch 1 0 0 (S r) 0
               (backoff + waited (backoff_delays (backoff * 2) r)));
        [apply within_call_fetch|].
      intros e. apply (within_bind 0 0 backoff (S r) 0 _); [apply within_sleep|].
      intros _. apply IH.
    + lia.
    + lia.
    + unfold waited. cbn [fold_right]. lia.
Qed.

Lemma within_fetchWithRetry_default h : within 4 0 7000 (fetchWithRetry_default h).
Proof. apply (within_fetchWithRetry h 3 1000). Qed.

(** Computations that neither fetch, nor call the model, nor wait. *)
Ltac still :=
  repeat first
    [ apply within_ret | apply within_throw | apply within_eval
    | apply within_Date_now | apply within_storage_set
    | apply (within_bind 0 0 0 0 0 0); [|intros ?]
    | match goal with
      | |- within _ _ _ (if ?b then _ else _) => destruct b
      | |- within _ _ _ (match ?x with _ => _ end) => destruct x
      end ].

Ltac weaken_to H := eapply within_weaken; [apply H | try lia ..].

Lemma within_fetch_dataset h : within 4 0 7000 (fetch_dataset h).
Proof.
  unfold fetch_dataset.
  apply (within_bind 4 0 7000 0 0 0); [apply within_fetchWithRetry_default|].
  intros r. still.
Qed.

Lemma within_poll h n :
  within (4 * S n) 0 (12000 * N.of_nat n + 7000) (poll h n).
Proof.
  induction n as [|n IH].
  - cbn [poll]. eapply within_weaken; [apply within_ret | lia..].
  - cbn [poll].
    eapply within_weaken;
      [apply (within_bind 0 0 5000 (4 + 4 * S n) 0 (7000 + (12000 * N.of_nat n + 7000)));
       [apply within_sleep|] | lia..].
    intros _.
    apply (within_bind 4 0 7000 (4 * S n) 0 (12000 * N.of_nat n + 7000));
      [apply within_fetchWithRetry_default|].
    intros r. destruct (negb (ok r)); [apply IH|].
    apply (within_bind 0 0 0 (4 * S n) 0 (12000 * N.of_nat n + 7000)); [apply within_eval|].
    intros statusData.
    apply (within_bind 0 0 0 (4 * S n) 0 (12000 * N.of_nat n + 7000)); [apply within_eval|].
    intros data.
    apply (within_bind 0 0 0 (4 * S n) 0 (12000 * N.of_nat n + 7000)); [apply within_eval|].
    intros st. destruct (is_status "SUCCEEDED" st).
    + eapply within_weaken; [apply within_fetch_dataset | lia..].
    + destruct (_ || _ || _); [|apply IH].
      eapply within_weaken; [apply within_throw | lia..].
Qed.

Lemma within_scrapeWebsite h site category :
  within 128 0 374000 (scrapeWebsite h site category).
Proof.
  unfold scrapeWebsite.
  apply (within_try_catch 128 0 374000 0 0 0); [|intros e; apply within_ret].
  destruct (env_value _) as [apifyToken|];
    [|eapply within_weaken; [apply within_throw | lia..]].
  apply (within_bind 0 0 0 128 0 374000); [apply within_eval|]. intros _.
  apply (within_bind 4 0 7000 124 0 367000); [apply within_fetchWithRetry_default|].
  intros r. destruct (negb (ok r)); [eapply within_weaken; [apply within_throw | lia..]|].
  apply (within_bind 0 0 0 124 0 367000); [apply within_eval|]. intros data.
  apply (within_bind 0 0 0 124 0 367000); [apply within_eval|]. intros run.
  apply (within_bind 0 0 0 124 0 367000); [apply within_eval|]. intros runId.
  apply (within_bind 124 0 367000 0 0 0); [apply (within_poll h maxAttempts)|].
  intros exit. still.
Qed.

Lemma within_extractProductData h rawData : within 4 0 7000 (extractProductData h rawData).
Proof.
  unfold extractProductData.
  destruct (env_value _) as [geminiApiKey|];
    [|eapply within_weaken; [apply within_ret | lia..]].
  destruct (is_empty rawData); [eapply within_weaken; [apply within_ret | lia..]|].
  apply (within_try_catch 4 0 7000 0 0 0); [|intros e; apply within_ret].
  apply (within_bind 4 0 7000 0 0 0); [apply within_fetchWithRetry_default|].
  intros r. still.
Qed.

Lemma within_analyzeProductData h products : within 0 1 0 (analyzeProductData h products).
Proof.
  unfold analyzeProductData.
  apply (within_try_catch 0 1 0 0 0 0); [|intros e; apply within_ret].
  apply (within_bind 0 0 0 0 1 0); [apply within_eval|]. intros apiKey.
  apply (within_bind 0 0 0 0 1 0); [apply within_eval|]. intros all_prices.
  apply (within_bind 0 1 0 0 0 0); [apply within_call_model|]. intros text.
  still.
Qed.

Lemma within_analyzeProducts h job site category :
  within 132 1 381000 (analyzeProducts h job site category).
Proof.
  unfold analyzeProducts.
  apply (within_try_catch 132 1 381000 0 0 0); [|intros e; still].
  apply (within_bind 128 0 374000 4 1 7000); [apply within_scrapeWebsite|].
  intros rawData.
  apply (within_bind 4 0 7000 0 1 0).
  { apply (within_try_catch 4 0 7000 0 0 0); [|intros e; apply within_ret].
    apply (within_bind 4 0 7000 0 0 0); [apply within_extractProductData|].
    intros structured. still. }
  intros extracted.
  apply (within_bind 0 0 0 0 1 0); [apply within_Date_now|]. intros now.
  apply (within_bind 0 1 0 0 0 0); [apply within_analyzeProductData|]. intros analysis.
  still.
Qed.

(** X9.  What a job costs at most, whatever the remote services answer:
    one call of [fetchWithRetry] makes at most 4 requests and waits at
    most 7 seconds; [scrapeWebsite] makes at most 128 requests and waits
    at most 374 seconds; a whole job started by [runProductComparison]
    makes at most 132 requests and one call of the model, and waits at
    most 381 seconds. *)
Theorem job_cost (h : host) (website category : option str) (site : str) :
  within 4 0 7000 (fetchWithRetry_default h)
  ∧ within 128 0 374000 (scrapeWebsite h site category)
  ∧ within 132 1 381000 (runProductComparison h website category).
Proof.
  split; [apply within_fetchWithRetry_default|].
  split; [apply within_scrapeWebsite|].
  unfold runProductComparison.
  apply (within_try_catch 132 1 381000 0 0 0); [|intros e; apply within_throw].
  destruct (env_value website) as [s|];
    [|eapply within_weaken; [apply within_throw | lia..]].
  apply (within_bind 0 0 0 132 1 381000); [apply within_Date_now|]. intros date.
  apply (within_bind 0 0 0 132 1 381000); [apply within_storage_set|]. intros _.
  apply (within_bind 132 1 381000 0 0 0);
    [apply within_detached, within_analyzeProducts|].
  intros _. apply within_ret.
Qed.

(** ** The polling loop of [scrapeWebsite] *)

Lemma later_0 w : later 0 [] w = w.
Proof. destruct w. unfold later. cbn. by rewrite Nat.add_0_r, app_nil_r. Qed.

Lemma later_later n1 d1 n2 d2 w : later n2 d2 (later n1 d1 w) = later (n1 + n2) (d1 ++ d2) w.
Proof. unfold later. cbn. f_equal; [lia | by rewrite app_assoc]. Qed.

Lemma count_fetch_add_timer ms w : count_fetch (add_timer ms w) = later 1 [ms] w.
Proof. unfold later, count_fetch, add_timer. cbn. f_equal. lia. Qed.

Lemma count_fetch_later w : count_fetch w = later 1 [] w.
Proof. unfold later, count_fetch. cbn. f_equal; [lia | by rewrite app_nil_r]. Qed.

(** One turn of the loop when the request is answered. *)
Lemma poll_answered h n w r :
  fetch h (fetches w) = Resolved r →
  poll h (S n) w
  = (if negb (ok r) then poll h n
     else
       match run_status r with
       | Abrupt e => throw e
       | Normal st =>
           if is_status "SUCCEEDED" st then fetch_dataset h
           else if is_status "FAILED" st || is_status "TIMED-OUT" st
                   || is_status "ABORTED" st
           then @throw loop_exit (ErrorObject
                         (lit "Cheerio Scraper task failed with status: "
                          ++ match st with Some (JStr t) => t | _ => [] end))
           else poll h n
       end) (later 1 [5000%N] w).
Proof.
  intros E. cbn [poll]. rewrite <- count_fetch_add_timer.
  rewrite (bind_normal (sleep 5000) _ w () (add_timer 5000 w)) by reflexivity.
  rewrite (bind_normal _ _ _ r (count_fetch (add_timer 5000 w)))
    by (by apply fetchWithRetry_resolved).
  destruct (negb (ok r)); [done|]. unfold run_status.
  destruct (safeJsonParse r) as [statusData|e]; [|done].
  rewrite (bind_normal (eval _) _ _ statusData _) by reflexivity.
  destruct (get_prop (Some statusData) _) as [data|e]; [|done].
  rewrite (bind_normal (eval _) _ _ data _) by reflexivity.
  destruct (get_prop data _) as [st|e]; [|done].
  by rewrite (bind_normal (eval _) _ _ st _) by reflexivity.
Qed.

(** [k] turns that all poll again. *)
Lemma poll_again h k n w :
  (∀ i, i < k → keeps_polling (fetch h (fetches w + i)) = true) →
  poll h (k + n) w = poll h n (later k (replicate k 5000%N) w).
Proof.
  revert w. induction k as [|k IH]; intros w Hk.
  - by rewrite later_0.
  - pose proof (Hk 0 ltac:(lia)) as H0. rewrite Nat.add_0_r in H0.
    unfold keeps_polling in H0. destruct (fetch h (fetches w)) as [r|] eqn:E; [|done].
    cbn [Nat.add]. rewrite (poll_answered _ _ _ _ E).
    assert (poll h (k + n) (later 1 [5000%N] w)
            = poll h n (later (S k) (replicate (S k) 5000%N) w)) as Hgo.
    { rewrite IH.
      - rewrite later_later. done.
      - intros i Hi. cbn [later fetches]. rewrite <- Nat.add_assoc. apply Hk. lia. }
    destruct (negb (ok r)); [done|]. cbn [orb] in H0.
    destruct (run_status r) as [st|]; [|done].
    apply negb_true_iff, orb_false_iff in H0 as [H0 Ha].
    apply orb_false_iff in H0 as [H0 Ht]. apply orb_false_iff in H0 as [Hs Hf].
    by rewrite Hs, Hf, Ht, Ha.
Qed.

Lemma fetch_dataset_items h w items :
  dataset_items (fetch h (fetches w)) = Some items →
  fetch_dataset h w
  = (if existsb is_null (take 5 (flat items))
     then (Abrupt (TypeError "Cannot read properties of null"))
     else Normal (Finished (Some (flat items))), later 1 [] w).
Proof.
  unfold dataset_items. destruct (fetch h (fetches w)) as [r|] eqn:E; [|done].
  destruct (ok r) eqn:Hok; [|done].
  destruct (safeJsonParse r) as [[| | | |[|x l]|]|] eqn:P; try done.
  intros [= <-]. unfold fetch_dataset.
  rewrite (bind_normal _ _ _ r (count_fetch w)) by (by apply fetchWithRetry_resolved).
  rewrite Hok. cbn [negb]. rewrite P.
  rewrite (bind_normal (eval _) _ _ (JArr (x :: l)) _) by reflexivity.
  rewrite count_fetch_later. by destruct (existsb _ _).
Qed.

Lemma scrapeWebsite_started h site category w token :
  env_value (APIFY_API_TOKEN h) = Some token →
  startUrl_check category = Normal () →
  starts_run (fetch h (fetches w)) = true →
  scrapeWebsite h site category w
  = try_catch
      (exit ← poll h maxAttempts;
       match exit with
       | Returned result => mret result
       | Finished (Some taskResult) => mret taskResult
       | Finished None =>
           @throw (list json)
             (ErrorObject (lit "Cheerio Scraper task did not complete after "
                           ++ N_to_str (N.of_nat maxAttempts) ++ lit " attempts"))
       end)
      (λ error, mret []) (later 1 [] w).
Proof.
  intros Htoken Hurl Hstart. unfold scrapeWebsite. rewrite Htoken, Hurl.
  unfold starts_run in Hstart. destruct (fetch h (fetches w)) as [r|] eqn:E; [|done].
  apply andb_true_iff in Hstart as [Hok Hstart].
  destruct (safeJsonParse r) as [data|] eqn:P; [|done].
  destruct (get_prop (Some data) _) as [run|] eqn:G1; [|done].
  destruct (get_prop run _) as [runId|] eqn:G2; [|done].
  unfold try_catch.
  rewrite (bind_normal (eval _) _ w () w) by reflexivity.
  rewrite (bind_normal _ _ _ r (count_fetch w)) by (by apply fetchWithRetry_resolved).
  rewrite Hok. cbn [negb]. rewrite P.
  rewrite (bind_normal (eval _) _ _ data _) by reflexivity. rewrite G1.
  rewrite (bind_normal (eval _) _ _ run _) by reflexivity. rewrite G2.
  rewrite (bind_normal (eval _) _ _ runId _) by reflexivity.
  by rewrite count_fetch_later.
Qed.

Lemma reports_status s o :
  reports s o = true →
  ∃ r st, o = Resolved r ∧ ok r = true ∧ run_status r = Normal st ∧ is_status s st = true.
Proof.
  unfold reports. destruct o as [r|]; [|done]. intros [Hok H]%andb_true_iff.
  destruct (run_status r) as [st|] eqn:E; [|done]. by exists r, st.
Qed.

Lemma is_status_text s st : is_status s st = true → st = Some (JStr (lit s)).
Proof.
  unfold is_status, is_string. destruct st as [[]|]; try done.
  by intros ->%str_eqb_eq.
Qed.

(** X10.  A run that is started and, after [k] polls that go on, reports
    an end.  If it reports SUCCEEDED and the dataset is an array that is
    not empty, [scrapeWebsite] returns the flattened items (nothing if one
    of the first five is [null]) after [k + 3] requests and [k + 1] waits
    of five seconds.  If it reports FAILED, TIMED-OUT or ABORTED,
    [scrapeWebsite] returns the empty list after [k + 2] requests: the
    error is not passed on. *)
Theorem scrapeWebsite_finished_run
    (h : host) (site : str) (category : option str) (w : world) (token : str) (k : nat) :
  env_value (APIFY_API_TOKEN h) = Some token →
  startUrl_check category = Normal () →
  starts_run (fetch h (fetches w)) = true →
  k < maxAttempts →
  (∀ i, i < k → keeps_polling (fetch h (fetches w + 1 + i)) = true) →
  (∀ items,
     reports "SUCCEEDED" (fetch h (fetches w + 1 + k)) = true →
     dataset_items (fetch h (fetches w + 1 + k + 1)) = Some items →
     scrapeWebsite h site category w
     = (Normal (if existsb is_null (take 5 (flat items)) then [] else flat items),
        later (k + 3) (replicate (S k) 5000%N) w))
  ∧ (reports "FAILED" (fetch h (fetches w + 1 + k)) = true
     ∨ reports "TIMED-OUT" (fetch h (fetches w + 1 + k)) = true
     ∨ reports "ABORTED" (fetch h (fetches w + 1 + k)) = true →
     scrapeWebsite h site category w
     = (Normal [], later (k + 2) (replicate (S k) 5000%N) w)).
Proof.
  intros Htoken Hurl Hstart Hk Hpolls.
  rewrite (scrapeWebsite_started _ _ _ _ _ Htoken Hurl Hstart).
  assert (maxAttempts = k + S (maxAttempts - S k)) as -> by lia.
  set (n := maxAttempts - S k). unfold try_catch.
  assert (poll h (k + S n) (later 1 [] w)
          = poll h (S n) (later (1 + k) (replicate k 5000%N) w)) as Hturns.
  { rewrite poll_again by (intros i Hi; cbn [later fetches]; by apply Hpolls).
    by rewrite later_later. }
  assert (later 1 [5000%N] (later (1 + k) (replicate k 5000%N) w)
          = later (k + 2) (replicate (S k) 5000%N) w) as Hworld.
  { rewrite later_later. f_equal; [lia|].
    change [5000%N] with (replicate 1 5000%N). rewrite <- replicate_add. f_equal. lia. }
  split.
  - intros items (r & st & E & Hok & Hst & Hs)%reports_status Hitems.
    unfold mbind, io_bind. rewrite Hturns.
    rewrite (poll_answered _ _ _ r) by (cbn [later fetches]; by rewrite Nat.add_assoc).
    rewrite Hok, Hst, Hs. cbn [negb]. rewrite Hworld.
    rewrite (fetch_dataset_items _ _ items).
    2:{ cbn [later fetches]. rewrite <- Hitems. do 2 f_equal. lia. }
    rewrite later_later, app_nil_r.
    replace (k + 2 + 1) with (k + 3) by lia. by destruct (existsb _ _).
  - intros Hend. unfold mbind, io_bind. rewrite Hturns.
    assert (∃ r st, fetch h (fetches w + 1 + k) = Resolved r ∧ ok r = true
                    ∧ run_status r = Normal st
                    ∧ is_status "SUCCEEDED" st = false
                    ∧ (is_status "FAILED" st || is_status "TIMED-OUT" st
                       || is_status "ABORTED" st) = true)
      as (r & st & E & Hok & Hst & Hs & Ht).
    { destruct Hend as [H|[H|H]]; apply reports_status in H as (r & st & E & Hok & Hst & Hs);
        exists r, st; apply is_status_text in Hs as ->; done. }
    rewrite (poll_answered _ _ _ r) by (cbn [later fetches]; by rewrite Nat.add_assoc).
    rewrite Hok, Hst, Hs, Ht. cbn [negb]. unfold throw, mret, io_ret. by rewrite Hworld.
Qed.

Lemma scrapeWebsite_finished_run_witness :
  scrapeWebsite (scripted [reply_started; reply_running; reply_succeeded; reply_dataset])
    (lit "example.com") None new_world
  = (Normal [JObj [(lit "name", JStr (lit "Widget")); (lit "price", JStr (lit "$19.99"));
                   (lit "rating", JNum (9 # 2))]],
     later 4 [5000; 5000]%N new_world).
Proof.
  refine (proj1 (scrapeWebsite_finished_run
                   (scripted [reply_started; reply_running; reply_succeeded; reply_dataset])
                   (lit "example.com") None new_world (lit "token") 1 _ _ _ _ _)
            [JObj [(lit "name", JStr (lit "Widget")); (lit "price", JStr (lit "$19.99"));
                   (lit "rating", JNum (9 # 2))]] _ _).
  - reflexivity.
  - reflexivity.
  - vm_compute. reflexivity.
  - unfold maxAttempts. lia.
  - intros [|i] Hi; [vm_compute; reflexivity | lia].
  - vm_compute. reflexivity.
  - vm_compute. reflexivity.
Defined.

(** X11.  A run that is started and whose thirty polls all go on:
    [scrapeWebsite] gives up after 31 requests and thirty waits of five
    seconds, and returns the empty list; the error that names the thirty
    attempts is not passed on. *)
Theorem scrapeWebsite_gives_up
    (h : host) (site : str) (category : option str) (w : world) (token : str) :
  env_value (APIFY_API_TOKEN h) = Some token →
  startUrl_check category = Normal () →
  starts_run (fetch h (fetches w)) = true →
  (∀ i, i < maxAttempts → keeps_polling (fetch h (fetches w + 1 + i)) = true) →
  scrapeWebsite h site category w
  = (Normal [], later (S maxAttempts) (replicate maxAttempts 5000%N) w).
Proof.
  intros Htoken Hurl Hstart Hpolls.
  rewrite (scrapeWebsite_started _ _ _ _ _ Htoken Hurl Hstart).
  unfold try_catch, mbind, io_bind.
  rewrite <- (Nat.add_0_r maxAttempts) at 1.
  rewrite poll_again by (intros i Hi; cbn [later fetches]; by apply Hpolls).
  by rewrite later_later.
Qed.

Lemma scrapeWebsite_gives_up_witness :
  scrapeWebsite always_running (lit "example.com") None new_world
  = (Normal [], later 31 (replicate 30 5000%N) new_world).
Proof.
  apply (scrapeWebsite_gives_up always_running (lit "example.com") None new_world
           (lit "token")).
  - reflexivity.
  - reflexivity.
  - vm_compute. reflexivity.
  - intros i Hi. vm_compute. reflexivity.
Defined.

(** ** The record a job saves *)

Lemma extractProductData_nil h w : extractProductData h [] w = (Normal [], w).
Proof. unfold extractProductData. by destruct (env_value _). Qed.




(** X13.  When [APIFY_API_TOKEN] is not set the job makes no request at
    all, and still saves a record with the status [completed]: one
    without products and without error text.  If the Gemini key is not
    set either, the model is not called and the analysis is all zeros. *)
Theorem analyzeProducts_without_token
    (h : host) (job site : str) (topic : option str) (w : world) :
  env_value (APIFY_API_TOKEN h) = None →
  ∃ r w',
    analyzeProducts h job site topic w = (Normal (), w')
    ∧ fetches w' = fetches w
    ∧ saved w' = saved w ++ [(result_key job, r)]
    ∧ status r = completed ∧ products r = [] ∧ error r = None
    ∧ (env_value (GEMINI_API_KEY h) = None →
       analysis r = Some no_analysis ∧ generations w' = generations w).
Proof.
  intros Htoken. unfold analyzeProducts.
  assert (scrapeWebsite h site topic w = (Normal [], w)) as E1.
  { unfold scrapeWebsite. by rewrite Htoken. }
  set (now := fold_left N.add (timers w) (clock h)).
  destruct (run_total_quiet _ w (total_analyzeProductData h [])
              (quiet_analyzeProductData h [])) as (a & w3 & E3 & S3).
  destruct (within_analyzeProductData h [] w) as (Hf & _). rewrite E3 in Hf. cbn in Hf.
  eexists _, (add_saved _ _ w3). split.
  { unfold try_catch at 1. rewrite (bind_normal _ _ _ _ _ E1).
    rewrite (bind_normal _ _ w [] w).
    2:{ unfold try_catch. by rewrite (bind_normal _ _ _ _ _ (extractProductData_nil h w)). }
    rewrite (bind_normal (Date_now h) _ w now w) by reflexivity.
    cbn [imap]. rewrite (bind_normal _ _ _ _ _ E3).
    rewrite (bind_normal (Date_now h) _ w3 _ w3) by reflexivity.
    reflexivity. }
  cbn [fetches add_saved]. split; [lia|].
  split; [cbn [saved add_saved]; by rewrite S3|].
  cbn [status error analysis products generations]. do 3 (split; [done|]).
  intros Hkey. unfold analyzeProductData, getGeminiApiKey in E3. rewrite Hkey in E3.
  injection E3 as <- <-. done.
Qed.


Lemma analyzeProducts_without_token_witness :
  ∃ r w',
    analyzeProducts unconfigured (lit "job-1") (lit "example.com") None new_world
    = (Normal (), w')
    ∧ fetches w' = fetches new_world
    ∧ saved w' = saved new_world ++ [(result_key (lit "job-1"), r)]
    ∧ status r = completed ∧ products r = [] ∧ error r = None
    ∧ (env_value (GEMINI_API_KEY unconfigured) = None →
       analysis r = Some no_analysis ∧ generations w' = generations new_world).
Proof.
  apply (analyzeProducts_without_token unconfigured (lit "job-1") (lit "example.com")
           None new_world).
  reflexivity.
Defined.

(** ** The analysis of the products *)

Lemma Qlt_bool_lt (a b : Q) : Qlt_bool a b = true ↔ (a < b)%Q.
Proof.
  unfold Qlt_bool. rewrite negb_true_iff, <- not_true_iff_false, Qle_bool_iff.
  split; [apply Qnot_le_lt | apply Qlt_not_le].
Qed.

Lemma Qlt_bool_ge (a b : Q) : Qlt_bool a b = false ↔ (b <= a)%Q.
Proof.
  unfold Qlt_bool. rewrite negb_false_iff. apply Qle_bool_iff.
Qed.

Section sorting.
Variable key : json → Q.

Let above (x y : json) : Prop := (key y <= key x)%Q.

Lemma insert_desc_perm x l : insert_desc key x l ≡ₚ x :: l.
Proof.
  induction l as [|y l IH]; cbn [insert_desc]; [done|].
  destruct (Qlt_bool _ _); [|done]. rewrite IH. apply Permutation_swap.
Qed.

Lemma sort_desc_perm l : sort_desc key l ≡ₚ l.
Proof.
  unfold sort_desc. induction l as [|x l IH]; cbn [foldr]; [done|].
  by rewrite insert_desc_perm, IH.
Qed.

Lemma insert_desc_sorted x l :
  StronglySorted above l → StronglySorted above (insert_desc key x l).
Proof.
  induction 1 as [|y l Hs IH Hy]; cbn [insert_desc].
  - repeat constructor.
  - destruct (Qlt_bool (key x) (key y)) eqn:E.
    + constructor; [done|]. rewrite insert_desc_perm. constructor; [|done].
      apply Qlt_bool_lt in E. unfold above. by apply Qlt_le_weak.
    + apply Qlt_bool_ge in E. constructor; [by constructor|].
      constructor; [done|]. eapply Forall_impl; [exact Hy|].
      intros z Hz. unfold above in *. by eapply Qle_trans.
Qed.

Lemma sort_desc_sorted l : StronglySorted above (sort_desc key l).
Proof.
  unfold sort_desc. induction l as [|x l IH]; cbn [foldr]; [constructor|].
  by apply insert_desc_sorted.
Qed.

Lemma sorted_descending l : StronglySorted above l → descending key l.
Proof.
  induction 1 as [|x l Hs IH Hx]; intros i j a b Hij Ha Hb.
  - done.
  - destruct j as [|j]; [lia|]. cbn in Hb. destruct i as [|i].
    + cbn in Ha. injection Ha as <-.
      rewrite Forall_forall in Hx. apply Hx. by eapply list_elem_of_lookup_2.
    + cbn in Ha. apply (IH i j); [lia|done..].
Qed.

End sorting.

(** X14.  The five best products by [rating] or [reviews]: [top_five]
    lists at most five products, all of them products of the input with a
    positive value, in descending order of the value; a product with a
    positive value that is left out has a value no greater than any one
    listed; and as many are listed as there are products with a positive
    value, up to five. *)
Theorem top_five_spec (k : string) (products : list json) :
  let key := number_field k in
  let top := top_five k products in
  length top ≤ 5
  ∧ descending key top
  ∧ (∀ x, x ∈ top → x ∈ products ∧ (0 < key x)%Q)
  ∧ (∀ p x, p ∈ products → (0 < key p)%Q → p ∉ top → x ∈ top → (key p <= key x)%Q)
  ∧ length top = 5 `min` length (filter (λ p, Is_true (Qlt_bool 0 (key p))) products).
Proof.
  intros key top. subst top. unfold top_five. fold key.
  set (positive := filter (λ p, Is_true (Qlt_bool 0 (key p))) products).
  set (sorted := sort_desc key positive).
  assert (sorted ≡ₚ positive) as Hperm by apply sort_desc_perm.
  assert (descending key sorted) as Hdesc by apply sorted_descending, sort_desc_sorted.
  assert (∀ x, x ∈ sorted ↔ x ∈ products ∧ (0 < key x)%Q) as Hin.
  { intros x. rewrite Hperm. unfold positive.
    rewrite list_elem_of_filter, Is_true_true, Qlt_bool_lt. tauto. }
  split; [rewrite length_take; lia|]. split.
  { intros i j x y Hij [Hx _]%lookup_take_Some [Hy _]%lookup_take_Some.
    by apply (Hdesc i j). }
  split.
  { intros x (i & Hi & _)%elem_of_take. apply Hin. by eapply list_elem_of_lookup_2. }
  split.
  { intros p x Hp Hpos Hout Hx.
    assert (p ∈ sorted) as Hps by (by apply Hin).
    rewrite <- (take_drop 5 sorted) in Hps. apply elem_of_app in Hps as [?|Hps]; [done|].
    apply list_elem_of_lookup in Hps as [j Hj]. apply list_elem_of_lookup in Hx as [i Hi].
    rewrite lookup_drop in Hj. apply lookup_take_Some in Hi as [Hi Hlt].
    apply (Hdesc i (5 + j)); [lia|done..]. }
  rewrite length_take. by rewrite Hperm.
Qed.

Lemma Qmin_cases (a b : Q) : (Qmin a b = a ∨ Qmin a b = b) ∧ (Qmin a b <= a)%Q ∧ (Qmin a b <= b)%Q.
Proof.
  split; [|split; [apply Q.le_min_l | apply Q.le_min_r]].
  unfold Qmin, GenericMinMax.gmin. destruct (a ?= b)%Q; auto.
Qed.

Lemma Qmax_cases (a b : Q) : (Qmax a b = a ∨ Qmax a b = b) ∧ (a <= Qmax a b)%Q ∧ (b <= Qmax a b)%Q.
Proof.
  split; [|split; [apply Q.le_max_l | apply Q.le_max_r]].
  unfold Qmax, GenericMinMax.gmax. destruct (a ?= b)%Q; auto.
Qed.

Lemma Qlist_min_spec (x : Q) (l : list Q) :
  Qlist_min x l ∈ x :: l ∧ ∀ p, p ∈ x :: l → (Qlist_min x l <= p)%Q.
Proof.
  unfold Qlist_min. revert x. induction l as [|a l IH]; intros x; cbn [fold_left].
  - split; [by left|]. intros p ->%list_elem_of_singleton. apply Qle_refl.
  - destruct (IH (Qmin x a)) as [Hin Hle].
    destruct (Qmin_cases x a) as (Hc & Hx & Ha). split.
    + apply elem_of_cons in Hin as [->|Hin]; [|by do 2 right].
      destruct Hc as [->| ->]; [by left | right; by left].
    + intros p Hp. assert (fold_left Qmin l (Qmin x a) <= Qmin x a)%Q as Hm
        by (apply Hle; by left).
      apply elem_of_cons in Hp as [->|Hp]; [by eapply Qle_trans|].
      apply elem_of_cons in Hp as [->|Hp]; [by eapply Qle_trans|].
      apply Hle. by right.
Qed.

Lemma Qlist_max_spec (x : Q) (l : list Q) :
  Qlist_max x l ∈ x :: l ∧ ∀ p, p ∈ x :: l → (p <= Qlist_max x l)%Q.
Proof.
  unfold Qlist_max. revert x. induction l as [|a l IH]; intros x; cbn [fold_left].
  - split; [by left|]. intros p ->%list_elem_of_singleton. apply Qle_refl.
  - destruct (IH (Qmax x a)) as [Hin Hle].
    destruct (Qmax_cases x a) as (Hc & Hx & Ha). split.
    + apply elem_of_cons in Hin as [->|Hin]; [|by do 2 right].
      destruct Hc as [->| ->]; [by left | right; by left].
    + intros p Hp. assert (Qmax x a <= fold_left Qmax l (Qmax x a))%Q as Hm
        by (apply Hle; by left).
      apply elem_of_cons in Hp as [->|Hp]; [by eapply Qle_trans|].
      apply elem_of_cons in Hp as [->|Hp]; [by eapply Qle_trans|].
      apply Hle. by right.
Qed.

(** X15.  The price range of the analysis: without prices it is all
    zeros; otherwise its minimum and its maximum are prices of the list,
    and every price of the list lies between them. *)
Theorem price_statistics_bounds (prices : list Q) :
  let r := price_statistics prices in
  (prices = [] → range_min r = 0%Q ∧ range_max r = 0%Q ∧ range_average r = 0%Q)
  ∧ (prices ≠ [] →
     range_min r ∈ prices ∧ range_max r ∈ prices
     ∧ ∀ p, p ∈ prices → (range_min r <= p)%Q ∧ (p <= range_max r)%Q).
Proof.
  cbv zeta. split; [by intros ->|]. intros Hne.
  destruct prices as [|x l]; [done|]. cbn [price_statistics range_min range_max].
  destruct (Qlist_min_spec x l) as [Hmin Hle], (Qlist_max_spec x l) as [Hmax Hge].
  split; [done|]. split; [done|]. intros p Hp. split; [by apply Hle | by apply Hge].
Qed.

(** ** analyzeProductData *)

Lemma map_completion_abrupt {A B} (f : A → completion B) (l : list A) x e :
  x ∈ l → f x = Abrupt e → ∃ e', map_completion f l = Abrupt e'.
Proof.
  intros Hx Hf. induction l as [|y l IH]; [by apply elem_of_nil in Hx|].
  cbn [map_completion]. apply elem_of_cons in Hx as [<-|Hx].
  - rewrite Hf. eauto.
  - destruct (f y); [|eauto]. destruct (IH Hx) as [e' ->]. eauto.
Qed.

Lemma or_default_truthy x d : truthy (Some x) = true → or_default (Some x) d = x.
Proof. intros H. unfold or_default. by rewrite H. Qed.

Lemma price_of_unreadable p : unreadable_price p = true → ∃ e, price_of p = Abrupt e.
Proof.
  unfold unreadable_price, price_of, field.
  destruct p as [|b|q|s|items|fields].
  - eauto.
  - done.
  - done.
  - intros H. vm_compute in H. discriminate.
  - intros H. vm_compute in H. discriminate.
  - cbn [get_prop]. destruct (own_get _ fields) as [v|]; [|done].
    intros Hv.
    assert (truthy (Some v) = true ∧ ∀ s, v ≠ JStr s) as [Ht Hs]
      by (by destruct v).
    rewrite (or_default_truthy _ _ Ht), Ht. cbn [negb orb].
    destruct v; try (by destruct (Hs s)); cbn [is_string string_receiver]; eauto.
Qed.


(** X17.  One product whose price cannot be read, because the product is
    [null] or because its price is a number, [true], an array or an
    object, voids the analysis of all products: the result is all zeros
    and empty lists, and the model is not called. *)
Theorem unreadable_price_voids_analysis
    (h : host) (products : list json) (w : world) (p : json) :
  p ∈ products →
  unreadable_price p = true →
  analyzeProductData h products w = (Normal no_analysis, w).
Proof.
  intros Hp [e He]%price_of_unreadable.
  destruct (map_completion_abrupt price_of products p e Hp He) as [e' Hmap].
  unfold analyzeProductData, getGeminiApiKey, try_catch, mbind, io_bind, eval.
  destruct (env_value (GEMINI_API_KEY h)); [|done]. by rewrite Hmap.
Qed.

Lemma unreadable_price_voids_analysis_witness :
  analyzeProductData (answering (dq "{'recommendations':['Lower the prices']}"))
    [ JObj [(lit "name", JStr (lit "Widget")); (lit "price", JStr (lit "$19.99"));
            (lit "rating", JNum 4)];
      JObj [(lit "name", JStr (lit "Gadget")); (lit "price", JNum 20)] ]
    new_world
  = (Normal no_analysis, new_world).
Proof.
  apply (unreadable_price_voids_analysis _ _ _
           (JObj [(lit "name", JStr (lit "Gadget")); (lit "price", JNum 20)])).
  - right. left.
  - reflexivity.
Defined.

(** ** What [cleanProductData] gives to the page *)

Lemma cleaned_object_fields product nm pr :
  ∃ fields,
    cleaned_object product nm pr = JObj fields
    ∧ own_get (lit "name") fields = Some nm
    ∧ own_get (lit "price") fields = Some pr
    ∧ own_get (lit "reviews") fields = Some (JNum (number_or_zero (field "reviews" product)))
    ∧ own_get (lit "rating") fields = Some (JNum (clean_rating (field "rating" product)))
    ∧ own_get (lit "url") fields = Some (or_default (field "url" product) (JStr []))
    ∧ own_get (lit "imageUrl") fields
      = Some (or_default (field "imageUrl" product) (JStr [])).
Proof.
  eexists. split; [reflexivity|]. rewrite !own_get_set.
  repeat split;
    repeat first [ rewrite decide_True by reflexivity
                 | rewrite decide_False by discriminate ]; reflexivity.
Qed.

Lemma or_default_is_truthy v d : truthy (Some d) = true → truthy (Some (or_default v d)) = true.
Proof.
  intros Hd. unfold or_default. destruct (truthy v) eqn:E; [|done].
  by destruct v.
Qed.

(** X18.  Every product [cleanProductData] lets through is an object
    with a name of at least three characters, a price that is not empty,
    a rating between 0 and 5, a number of reviews, a [url] and an
    [imageUrl], whatever the product scraped and however
    [cleanHtmlFromName] cleans names. *)
Theorem cleanProductData_shape (cleanHtmlFromName : str → str) (product out : json) :
  cleanProductData cleanHtmlFromName product = Normal (Some out) →
  ∃ fields nm pr r n,
    out = JObj fields
    ∧ own_get (lit "name") fields = Some (JStr nm) ∧ 3 ≤ length nm
    ∧ own_get (lit "price") fields = Some pr ∧ truthy (Some pr) = true
    ∧ own_get (lit "rating") fields = Some (JNum r) ∧ (0 <= r)%Q ∧ (r <= 5)%Q
    ∧ own_get (lit "reviews") fields = Some (JNum n)
    ∧ is_Some (own_get (lit "url") fields)
    ∧ is_Some (own_get (lit "imageUrl") fields).
Proof.
  unfold cleanProductData.
  destruct (negb (truthy (Some product))); [done|].
  destruct (string_receiver _) as [nm|e]; [|done].
  set (cleanedName := if str_eqb nm [] then [] else cleanHtmlFromName nm).
  pose proof (clean_rating_range (field "rating" product)) as [Hr0 Hr5].
  destruct (str_eqb cleanedName [] || (length cleanedName <? 3)) eqn:Hshort.
  - destruct (truthy _ && (3 <=? length nm)) eqn:Hname; [|done]. intros [= <-].
    apply andb_true_iff in Hname as [_ Hlen%Nat.leb_le].
    destruct (cleaned_object_fields product (JStr nm)
                (or_default (field "price" product) (JStr (lit "Price not available"))))
      as (fields & -> & H1 & H2 & H3 & H4 & H5 & H6).
    eexists fields, nm, _, _, _. rewrite H1, H2, H3, H4, H5, H6.
    repeat split; try done; eauto. by apply or_default_is_truthy.
  - apply orb_false_iff in Hshort as [_ Hlen%Nat.ltb_ge].
    destruct (if truthy _ then _ else _) as [price1|e]; [|done]. intros [= <-].
    destruct (cleaned_object_fields product (JStr cleanedName)
                (or_default (Some price1) (JStr (lit "Price not available"))))
      as (fields & -> & H1 & H2 & H3 & H4 & H5 & H6).
    eexists fields, cleanedName, _, _, _. rewrite H1, H2, H3, H4, H5, H6.
    repeat split; try done; eauto. by apply or_default_is_truthy.
Qed.

Lemma cleanProductData_shape_witness :
  ∃ fields nm pr r n,
    JObj [(lit "name", JStr (lit "Widget")); (lit "price", JStr (lit "$19.99"));
          (lit "rating", JNum 5); (lit "reviews", JNum 0); (lit "url", JStr []);
          (lit "imageUrl", JStr [])] = JObj fields
    ∧ own_get (lit "name") fields = Some (JStr nm) ∧ 3 ≤ length nm
    ∧ own_get (lit "price") fields = Some pr ∧ truthy (Some pr) = true
    ∧ own_get (lit "rating") fields = Some (JNum r) ∧ (0 <= r)%Q ∧ (r <= 5)%Q
    ∧ own_get (lit "reviews") fields = Some (JNum n)
    ∧ is_Some (own_get (lit "url") fields)
    ∧ is_Some (own_get (lit "imageUrl") fields).
Proof.
  apply (cleanProductData_shape (λ name, name)
           (JObj [(lit "name", JStr (lit "Widget")); (lit "price", JStr (lit "$19.99"));
                  (lit "rating", JNum 7)])).
  vm_compute. reflexivity.
Defined.

(** X19.  What [cleanProductData] does with the name.  A product that is
    falsy, or whose name is missing or falsy, is dropped ([null]); so is
    one whose name and cleaned name are both shorter than three
    characters.  A name that is truthy and not a string (a number, [true],
    an array, an object) makes [cleanProductData] throw. *)
Theorem cleanProductData_name_cases (cleanHtmlFromName : str → str) (product : json) :
  (truthy (Some product) = false
   → cleanProductData cleanHtmlFromName product = Normal None)
  ∧ (truthy (field "name" product) = false
     → cleanProductData cleanHtmlFromName product = Normal None)
  ∧ (∀ nm, field "name" product = Some (JStr nm) →
           length nm < 3 → length (cleanHtmlFromName nm) < 3 →
           cleanProductData cleanHtmlFromName product = Normal None)
  ∧ (∀ v, truthy (Some product) = true → field "name" product = Some v →
          truthy (Some v) = true → is_text v = false →
          ∃ e, cleanProductData cleanHtmlFromName product = Abrupt e).
Proof.
  unfold cleanProductData. split; [by intros ->|]. split; [|split].
  - intros Hname. destruct (negb (truthy (Some product))); [done|].
    unfold or_default. rewrite Hname. reflexivity.
  - intros nm Hname Hlen Hclean. destruct (negb (truthy (Some product))); [done|].
    rewrite Hname. destruct (truthy (Some (JStr nm))) eqn:Ht.
    + rewrite (or_default_truthy _ _ Ht). cbn [string_receiver].
      apply Nat.ltb_lt in Hclean.
      replace (3 <=? length nm) with false by (symmetry; apply Nat.leb_gt; lia).
      rewrite andb_false_r.
      destruct (str_eqb nm []); [reflexivity|]. by rewrite Hclean, orb_true_r.
    + unfold or_default. rewrite Ht. reflexivity.
  - intros v Hp Hname Hv Htext. rewrite Hp, Hname. cbn [negb].
    rewrite (or_default_truthy _ _ Hv). destruct v; try done; cbn; eauto.
Qed.

(** ** When [compareWebsites] falls back *)

Lemma map_completion_units {A} (f : A → completion unit) (l : list A) :
  Forall (λ x, f x = Normal ()) l → ∃ us, map_completion f l = Normal us.
Proof.
  induction 1 as [|x l Hx _ [us IH]]; cbn [map_completion]; [eauto|].
  rewrite Hx, IH. eauto.
Qed.

(** X20.  The outcomes of [compareWebsites].  Without a Gemini key the
    result is the fallback of [generateFallbackSWOT] and the model is not
    called.  With a key and dates that can be printed the model is called
    once: if the call fails the result is the fallback; if it answers,
    the result is what the extraction makes of the text, which is the
    fallback again when the text chosen for parsing is not JSON and has
    no opening brace. *)
Theorem compareWebsites_outcomes
    (h : host) (mainWebsite : analyze.WebsiteData)
    (competitors : list analyze.WebsiteData) (w : world) :
  let fallback := analyze.generateFallbackSWOT mainWebsite competitors in
  (env_value (GEMINI_API_KEY h) = None →
   analyze.compareWebsites h mainWebsite competitors w = (Normal fallback, w))
  ∧ (∀ apiKey, env_value (GEMINI_API_KEY h) = Some apiKey →
       dates_print mainWebsite competitors →
       (∀ e, generateContent h (generations w) = Abrupt e →
             analyze.compareWebsites h mainWebsite competitors w
             = (Normal fallback, count_generation w))
       ∧ (∀ text, generateContent h (generations w) = Normal text →
            analyze.compareWebsites h mainWebsite competitors w
            = (Normal (analyze.extract text fallback), count_generation w)))
  ∧ (∀ text, JSON_parse (analyze.jsonStr text) = None →
             includes (lit "{") (analyze.jsonStr text) = false →
             analyze.extract text fallback = fallback).
Proof.
  intros fallback. subst fallback. split; [|split].
  - intros Hkey. unfold analyze.compareWebsites, getGeminiApiKey. by rewrite Hkey.
  - intros apiKey Hkey [Hmain Hcomps].
    destruct (map_completion_units _ _ Hcomps) as [us Hus].
    unfold analyze.compareWebsites, getGeminiApiKey, try_catch, mbind, io_bind, eval,
      call_model, mret, io_ret.
    rewrite Hkey, Hmain, Hus. split.
    + intros e He. by rewrite He.
    + intros text Ht. by rewrite Ht.
  - intros text Hparse Hbrace. unfold analyze.extract, analyze.parse_swot.
    rewrite Hparse. unfold analyze.extractedJson.
    by rewrite (proj2 (indexOf_None _ _) Hbrace).
Qed.

Lemma swot_of_non_object v :
  is_null v = false → is_object v = false → analyze.swot_of v = Normal empty_swot.
Proof. destruct v; try done; intros _ _; vm_compute; reflexivity. Qed.

(** X21.  A response whose text parses to JSON that is neither an object
    nor [null] (an array, a string, a number, a boolean) does not lead to
    the fallback: the result of the extraction has no strengths, no
    weaknesses, no opportunities and no threats. *)
Theorem extract_of_non_object (text : str) (fallback : analyze.swot) (v : json) :
  JSON_parse (analyze.jsonStr text) = Some v →
  is_null v = false →
  is_object v = false →
  analyze.extract text fallback = empty_swot.
Proof.
  intros Hparse Hnull Hobj. unfold analyze.extract, analyze.parse_swot.
  by rewrite Hparse, (swot_of_non_object v Hnull Hobj).
Qed.

Lemma extract_of_non_object_witness :
  analyze.extract (lit "[]") (analyze.generateFallbackSWOT blank_site []) = empty_swot.
Proof.
  apply (extract_of_non_object (lit "[]") _ (JArr [])).
  - vm_compute. reflexivity.
  - reflexivity.
  - reflexivity.
Defined.

(** X22.  The fallback of [generateFallbackSWOT] is never empty: it has
    exactly three opportunities, two threats and a third one exactly when
    there are competitors, at most three strengths and three weaknesses
    and at least one of either; all entries are strings; and the
    weakness about missing keywords is there exactly when the site has no
    keywords. *)
Theorem generateFallbackSWOT_shape
    (mainWebsite : analyze.WebsiteData) (competitors : list analyze.WebsiteData) :
  let s := analyze.generateFallbackSWOT mainWebsite competitors in
  length (analyze.opportunities s) = 3
  ∧ length (analyze.threats s) = (if is_empty competitors then 2 else 3)
  ∧ length (analyze.strengths s) ≤ 3
  ∧ length (analyze.weaknesses s) ≤ 3
  ∧ 1 ≤ length (analyze.strengths s) + length (analyze.weaknesses s)
  ∧ Forall (λ x, ∃ t, x = JStr t)
      (analyze.strengths s ++ analyze.weaknesses s
       ++ analyze.opportunities s ++ analyze.threats s)
  ∧ (JStr (lit "No keywords defined for SEO") ∈ analyze.weaknesses s
     ↔ analyze.keywords mainWebsite = []).
Proof.
  cbv zeta. unfold analyze.generateFallbackSWOT.
  cbn [analyze.opportunities analyze.threats analyze.strengths analyze.weaknesses].
  split; [done|]. split; [by destruct competitors|].
  destruct (5 <? length (analyze.title mainWebsite));
    destruct (10 <? length (analyze.description mainWebsite)) eqn:D1;
    destruct (length (analyze.description mainWebsite) <? 10) eqn:D2;
    destruct (length (analyze.content mainWebsite) <? 1000);
    destruct (analyze.keywords mainWebsite) as [|kw kws]; destruct competitors;
    cbn [is_empty negb app length];
    (split; [lia|]); (split; [lia|]); (split; [lia|]);
    (split; [repeat constructor; eauto|]);
    (split;
     [ intros H; try done;
       repeat (apply elem_of_cons in H as [H|H]; [vm_compute in H; discriminate H|]);
       by apply elem_of_nil in H
     | intros H; try done; rewrite !elem_of_cons;
       repeat first [left; reflexivity | right] ]).
Qed.

(** ** The files of the jobs *)











(** ** A storage directory that cannot be written *)



(** ** Starting a job *)

(** X25.  [runProductComparison] returns exactly when a website is
    given.  Without one, or with the empty string, it throws [Failed to
    run product comparison: Website is required], saves nothing and makes
    no request.  With one it returns the identifier drawn by [uuidv4],
    and two records have been saved under the key of that identifier:
    the placeholder, [running], and then the record of the job,
    [completed]. *)
Theorem runProductComparison_outcomes
    (h : host) (website topic : option str) (w : world) :
  (env_value website = None →
   runProductComparison h website topic w
   = (Abrupt (ErrorObject (lit "Failed to run product comparison: Website is required")),
      w))
  ∧ (∀ site, env_value website = Some site →
       ∃ placeholder r w',
         runProductComparison h website topic w = (Normal (uuidv4 h), w')
         ∧ saved w' = saved w ++ [(result_key (uuidv4 h), placeholder);
                                  (result_key (uuidv4 h), r)]
         ∧ status placeholder = running ∧ status r = completed)
  ∧ (is_Some (env_value website)
     ↔ ∃ a, (runProductComparison h website topic w).1 = Normal a).
Proof.
  split; [apply runProductComparison_without_website|].
  assert (∀ site, env_value website = Some site → website = Some site ∧ site ≠ []) as Hsite.
  { intros site E. destruct website as [[|c t]|]; cbn in E; try done. by injection E as <-. }
  split.
  - intros site [-> Hne]%Hsite.
    destruct (runProductComparison_saves h site topic w Hne)
      as (p & r & w' & E & S & Hp & _ & _ & _ & Hr & _).
    by exists p, r, w'.
  - split.
    + intros [site [-> Hne]%Hsite].
      destruct (runProductComparison_saves h site topic w Hne) as (p & r & w' & E & _).
      exists (uuidv4 h). by rewrite E.
    + intros [a Ha]. destruct (env_value website) eqn:E; [done|].
      by rewrite (runProductComparison_without_website _ _ _ _ E) in Ha.
Qed.
